(** * Retrieval pipeline of the HR assistant: chunking, embedding, indexing, retrieval

    A shallow embedding of [src/rag/indexer.py], [src/rag/embeddings.py] and
    [src/rag/retriever.py].  Python [str] values are lists of Unicode code
    points, Python [int] values are [Z], dictionaries keyed by strings are
    [gmap]s, and the external services (tokenizer, embedding endpoint, hash
    function, search index) are section variables or small state models. *)

From Stdlib Require Import ZArith QArith Lia String Ascii.
From stdpp Require Import base list gmap strings pretty sorting.

Local Open Scope Z_scope.

(** ** Python strings *)

Module PyStr.

(** A [str] is a sequence of code points. *)
Abbreviation str := (list N).

Definition SPACE : N := 32%N.
Definition NEWLINE : N := 10%N.
Definition DOT : N := 46%N.
Definition QUESTION : N := 63%N.
Definition BANG : N := 33%N.
Definition UNDERSCORE : N := 95%N.
Definition QUOTE : N := 39%N.

(** Literals are written as Rocq strings and read as code points. *)
Definition lit (s : string) : str := N_of_ascii <$> list_ascii_of_string s.

(** [len(s)], for strings and for lists. *)
Definition len {A} (s : list A) : Z := Z.of_nat (length s).

(** [str.isspace] on one code point, which is also the class [\s] of [re]
    for [str] patterns. *)
Definition isspace (c : N) : bool :=
  ((9 <=? c) && (c <=? 13) || (28 <=? c) && (c <=? 32)
   || (c =? 133) || (c =? 160) || (c =? 5760)
   || (8192 <=? c) && (c <=? 8202)
   || (c =? 8232) || (c =? 8233) || (c =? 8239) || (c =? 8287)
   || (c =? 12288))%N.

(** [re.sub(r'\s+', ' ', s)]: every maximal run of whitespace becomes one
    space.  [in_run] tells whether the previous character was whitespace. *)
Fixpoint sub_spaces (in_run : bool) (s : str) : str :=
  match s with
  | [] => []
  | c :: r =>
      if isspace c
      then (if in_run then sub_spaces true r else SPACE :: sub_spaces true r)
      else c :: sub_spaces false r
  end.

Fixpoint lstrip (s : str) : str :=
  match s with
  | [] => []
  | c :: r => if isspace c then lstrip r else s
  end.

Definition rstrip (s : str) : str := reverse (lstrip (reverse s)).

(** [s.strip()] *)
Definition strip (s : str) : str := rstrip (lstrip s).

(** A slice bound as Python resolves it against a length [n]: negative
    bounds count from the end, and every bound is clamped to [0..n]. *)
Definition clamp_index (n i : Z) : Z :=
  if i <? 0 then Z.max (i + n) 0 else Z.min i n.

(** [s[a:b]], for strings and for lists. *)
Definition slice {A} (s : list A) (a b : Z) : list A :=
  let a' := clamp_index (len s) a in
  let b' := clamp_index (len s) b in
  take (Z.to_nat (b' - a')) (drop (Z.to_nat a') s).

(** [s[a:]] *)
Definition slice_from {A} (s : list A) (a : Z) : list A :=
  drop (Z.to_nat (clamp_index (len s) a)) s.

(** [s[:b]] *)
Definition slice_to {A} (s : list A) (b : Z) : list A :=
  take (Z.to_nat (clamp_index (len s) b)) s.

Fixpoint startswith (s p : str) : bool :=
  match p, s with
  | [], _ => true
  | _ :: _, [] => false
  | x :: p', y :: s' => (x =? y)%N && startswith s' p'
  end.

(** [rfind_aux p s i best]: [s] is the part of the subject starting at
    index [i]; [best] is the highest match found before [i]. *)
Fixpoint rfind_aux (p s : str) (i best : Z) : Z :=
  let best' := if startswith s p then i else best in
  match s with
  | [] => best'
  | _ :: r => rfind_aux p r (i + 1) best'
  end.

(** [s.rfind(p)]: the highest index where [p] occurs in [s], or [-1]. *)
Definition rfind (s p : str) : Z := rfind_aux p s 0 (-1).

(** Truth value of a string or a list: [bool(s)]. *)
Definition truthy {A} (s : list A) : bool :=
  match s with [] => false | _ => true end.

(** [str(n)] for a non-negative integer. *)
Definition str_of_nat (n : nat) : str := lit (pretty n).

(** A string that is not empty and neither starts nor ends with
    whitespace: what [strip] leaves of a string that is not blank. *)
Definition trimmed (s : str) : Prop :=
  ∃ first final,
    head s = Some first ∧ last s = Some final
    ∧ isspace first = false ∧ isspace final = false.

End PyStr.

(** ** [DocumentIndexer.chunk_text] *)

Module Chunker.
Import PyStr.

(** Class attributes of [DocumentIndexer]. *)
Definition CHUNK_SIZE : Z := 1000.
Definition CHUNK_OVERLAP : Z := 200.

(** Sentence endings, in the order the loop tries them. *)
Definition sentence_endings : list str :=
  [ [DOT; SPACE]; [DOT; NEWLINE]; [QUESTION; SPACE]; [QUESTION; NEWLINE];
    [BANG; SPACE]; [BANG; NEWLINE]; [NEWLINE; NEWLINE] ].

(** What one pass through the body of the [while] loop does. *)
Inductive iteration :=
| LastChunk (chunk : str)
| Advance (best_break : Z) (chunk : str) (next_start : Z).

Section WithConfiguration.
(** [self.CHUNK_SIZE] and [self.CHUNK_OVERLAP], read through [self]. *)
Variables (size overlap : Z).

(** The [for pattern in [...]] loop: the first pattern whose last
    occurrence in the search window ends past the midpoint wins. *)
Fixpoint sentence_break (patterns : list str) (search_text : str)
    (search_start start : Z) : Z :=
  match patterns with
  | [] => -1
  | pattern :: rest =>
      let pos := rfind search_text pattern in
      if pos =? -1 then sentence_break rest search_text search_start start
      else
        let actual_pos := search_start + pos + len pattern in
        if actual_pos >? start + size / 2 then actual_pos
        else sentence_break rest search_text search_start start
  end.

Definition choose_break (text : str) (start : Z) : Z :=
  let end_ := start + size in
  let search_start := Z.max (start + size - 100) start in
  let search_end := Z.min (start + size + 100) (len text) in
  let search_text := slice text search_start search_end in
  let best_break := sentence_break sentence_endings search_text search_start start in
  if best_break =? -1 then
    let search_text := slice text start (end_ + 50) in
    let space_pos := rfind search_text [SPACE] in
    if space_pos >? size / 2 then start + space_pos else end_
  else best_break.

Definition iterate (text : str) (start : Z) : iteration :=
  let end_ := start + size in
  if end_ >=? len text then LastChunk (strip (slice_from text start))
  else
    let best_break := choose_break text start in
    let chunk := strip (slice text start best_break) in
    let start' := best_break - overlap in
    Advance best_break chunk (if start' <? 0 then best_break else start').

(** The [while start < len(text)] loop.  Each appended chunk is kept
    together with the window start it was cut from; [fuel] bounds the
    number of passes and [None] means the loop was still running. *)
Fixpoint chunk_loop (fuel : nat) (text : str) (start : Z)
    (chunks : list (Z * str)) : option (list (Z * str)) :=
  match fuel with
  | O => None
  | S fuel' =>
      if start <? len text then
        match iterate text start with
        | LastChunk chunk => Some (chunks ++ [(start, chunk)])
        | Advance _ chunk next_start =>
            chunk_loop fuel' text next_start
              (if truthy chunk then chunks ++ [(start, chunk)] else chunks)
        end
      else Some chunks
  end.

Definition normalize (text : str) : str := strip (sub_spaces false text).

(** Chunks with the window start of each. *)
Definition chunk_windows (fuel : nat) (text : str) : option (list (Z * str)) :=
  let text := normalize text in
  if len text <=? size then Some (if truthy text then [(0, text)] else [])
  else chunk_loop fuel text 0 [].

Definition chunk_text (fuel : nat) (text : str) : option (list str) :=
  fmap (M := list) snd <$> chunk_windows fuel text.

End WithConfiguration.

(** The bounds [(start, best_break)] of the slices the [while] loop cuts,
    pass by pass; the last pass cuts [text[start:]]. *)
Fixpoint window_bounds (size overlap : Z) (fuel : nat) (text : str) (start : Z)
    : option (list (Z * Z)) :=
  match fuel with
  | O => None
  | S fuel' =>
      if start <? len text then
        match iterate size overlap text start with
        | LastChunk _ => Some [(start, len text)]
        | Advance best_break _ next_start =>
            cons (start, best_break) <$> window_bounds size overlap fuel' text next_start
        end
      else Some []
  end.

(** The chunk cut from the slice with the given bounds, with its start. *)
Definition cut (text : str) (w : Z * Z) : Z * str :=
  (w.1, strip (slice text w.1 w.2)).

(** The sentence endings without a newline. *)
Definition space_endings : list str :=
  [ [DOT; SPACE]; [QUESTION; SPACE]; [BANG; SPACE] ].

(** ["A. " * 500] *)
Definition sample_text : str := mjoin (replicate 500 (lit "A. ")).

(** ["a" * 1500]: no sentence ending and no space anywhere. *)
Definition unbroken_text : str := replicate 1500 97%N.

End Chunker.

(** ** Exceptions *)

Module PyResult.

(** The outcome of a call: a value, or an exception named by its class. *)
Inductive result (A : Type) : Type :=
| Ok (value : A)
| Raise (exception : string).
Arguments Ok {A} value.
Arguments Raise {A} exception.

#[global] Instance result_ret : MRet result := λ A, Ok.
#[global] Instance result_bind : MBind result :=
  λ A B f r, match r with Ok a => f a | Raise e => Raise e end.

Definition is_ok {A} (r : result A) : bool :=
  match r with Ok _ => true | Raise _ => false end.

(** The value of a call that returned, and [d] for one that raised. *)
Definition value_or {A} (d : A) (r : result A) : A :=
  match r with Ok a => a | Raise _ => d end.

(** [@retry(stop=stop_after_attempt(3), wait=...)] of tenacity: the call is
    made again after any exception, three times at most, then [RetryError]
    is raised.  The waiting time is not modelled; [call] receives the
    number of the attempt. *)
Definition retry3 {A} (call : nat → result A) : result A :=
  match call 0%nat with
  | Ok a => Ok a
  | Raise _ =>
      match call 1%nat with
      | Ok a => Ok a
      | Raise _ =>
          match call 2%nat with
          | Ok a => Ok a
          | Raise _ => Raise "RetryError"
          end
      end
  end.

(** [range(start, stop, step)] *)
Definition py_range (start stop step : Z) : result (list Z) :=
  if step =? 0 then Raise "ValueError"
  else if 0 <? step
  then Ok ((λ k, start + k * step) <$> seqZ 0 ((stop - start + step - 1) / step))
  else Ok ((λ k, start + k * step) <$> seqZ 0 ((start - stop - step - 1) / (- step))).

End PyResult.

(** ** [sorted(xs, key=...)] and [xs.sort(key=...)] *)

Module PySort.

Section WithKey.
Context {A K : Type} (leb : K → K → bool) (key : A → K).

(** [x] goes in front of the first element whose key is not smaller, so
    elements with equal keys keep their order (the sort is stable). *)
Fixpoint insert_sorted (x : A) (l : list A) : list A :=
  match l with
  | [] => [x]
  | y :: r => if leb (key x) (key y) then x :: l else y :: insert_sorted x r
  end.

Definition sorted (l : list A) : list A := foldr insert_sorted [] l.

(** The order the result is sorted by. *)
Definition key_le (a b : A) : Prop := leb (key a) (key b) = true.

End WithKey.

End PySort.

(** ** [EmbeddingsGenerator] *)

Module Embeddings.
Import PyStr PyResult PySort.

(** [list[float]]: the components are opaque to the pipeline. *)
Abbreviation vector := (list Q).

(** Every entry of [MODEL_TOKEN_LIMITS], and the default of its [get]. *)
Definition token_limit : Z := 8191.

(** [MODEL_DIMENSIONS.get(self.model, 1536)] *)
Definition dimensions (model : string) : nat :=
  if String.eqb model "text-embedding-3-large" then 3072%nat else 1536%nat.

(** One item of [response.data]. *)
Record Embedding := { index : nat; embedding : vector }.

Section Generator.
(** The tokenizer, the configured model and the remote endpoint.
    [encode text] is [self.encoding.encode(text)], called with the defaults
    of tiktoken: it raises [ValueError] on a text that contains the string
    of a special token.  [create attempt i batch] is [response.data] of the
    call made for the batch at offset [i] during the given attempt of the
    retried method, or the exception the call raises. *)
Variable encode : str → result (list N).
Variable decode : list N → str.
Variable model : string.
Variable create : nat → Z → list str → result (list Embedding).

(** [len(self.encoding.encode(text))] *)
Definition count_tokens (text : str) : result Z :=
  tokens ← encode text;
  mret (len tokens).

Definition truncate_to_token_limit (text : str) (max_tokens : option Z) : result str :=
  let max_tokens :=
    match max_tokens with
    | Some m => if m =? 0 then token_limit else m
    | None => token_limit
    end in
  tokens ← encode text;
  mret (if len tokens <=? max_tokens then text
        else decode (slice_to tokens max_tokens)).

(** The body of the first loop of [generate_embeddings_batch]. *)
Definition preprocess (text : str) : result str :=
  truncated ← truncate_to_token_limit text None;
  mret (if truthy (strip truncated) then truncated else [SPACE]).

(** The first loop: the texts are taken in order, and the first exception
    ends the loop and the attempt. *)
Fixpoint preprocess_all (texts : list str) : result (list str) :=
  match texts with
  | [] => Ok []
  | text :: rest =>
      processed ← preprocess text;
      processed_texts ← preprocess_all rest;
      mret (processed :: processed_texts)
  end.

Definition generate_embeddings_batch_attempt (attempt : nat)
    (texts : list str) (batch_size : Z) : result (list vector) :=
  processed_texts ← preprocess_all texts;
  offsets ← py_range 0 (len processed_texts) batch_size;
  foldl (λ acc i,
           embeddings ← acc;
           let batch := slice processed_texts i (i + batch_size) in
           data ← create attempt i batch;
           let batch_embeddings := sorted Nat.leb index data in
           mret (embeddings ++ (embedding <$> batch_embeddings)))
        (Ok []) offsets.

Definition generate_embeddings_batch (texts : list str) (batch_size : Z)
    : result (list vector) :=
  retry3 (λ attempt, generate_embeddings_batch_attempt attempt texts batch_size).

(** The argument of [logger.debug] is an f-string, so [count_tokens] is
    called before the request, whatever the log level. *)
Definition generate_embedding_attempt (attempt : nat) (text : str) : result vector :=
  text ← truncate_to_token_limit text None;
  if truthy (strip text) then
    _ ← count_tokens text;
    data ← create attempt 0 [text];
    match data with
    | e :: _ => Ok (embedding e)
    | [] => Raise "IndexError"
    end
  else Ok (replicate (dimensions model) 0%Q).

Definition generate_embedding (text : str) : result vector :=
  retry3 (λ attempt, generate_embedding_attempt attempt text).

(** The body of the loop over the batch offsets, and the offsets of the
    first [k] batches. *)
Definition batch_step (attempt : nat) (processed : list str) (batch_size : Z)
    (acc : result (list vector)) (i : Z) : result (list vector) :=
  embeddings ← acc;
  data ← create attempt i (slice processed i (i + batch_size));
  mret (embeddings ++ (embedding <$> sorted Nat.leb index data)).

Definition offsets (batch_size : Z) (k : nat) : list Z :=
  (λ j, j * batch_size) <$> seqZ 0 (Z.of_nat k).

(** The batches [processed_texts[i:i + batch_size]] of the loop, in the
    order they are submitted. *)
Definition batches (processed : list str) (batch_size : Z) : list (list str) :=
  (λ i, slice processed i (i + batch_size))
    <$> offsets batch_size (Z.to_nat ((len processed + batch_size - 1) / batch_size)).

End Generator.

(** The items of a well-formed response for a batch, in request order;
    [embedding_of] is the vector the model assigns to a text. *)
Definition response_of (embedding_of : str → vector) (batch : list str)
    : list Embedding :=
  imap (λ j text, {| index := j; embedding := embedding_of text |}) batch.

(** A simulated backend that returns every batch in reverse order, with a
    tokenizer of one token per character. *)
Definition sample_embedding (text : str) : vector := [inject_Z (len text)].

Definition reversing_backend (attempt : nat) (i : Z) (batch : list str)
    : result (list Embedding) :=
  Ok (reverse (response_of sample_embedding batch)).

Definition sample_encode (text : str) : result (list N) := Ok text.
Definition sample_decode (tokens : list N) : str := tokens.

(** A tokenizer that, like tiktoken, refuses a text that holds the string
    of a special token. *)
Definition SPECIAL_TOKEN : str := lit "<|endoftext|>".

Definition strict_encode (text : str) : result (list N) :=
  if rfind text SPECIAL_TOKEN =? -1 then Ok text else Raise "ValueError".

End Embeddings.

(** ** [DocumentIndexer]: indexing and deletion *)

Module Indexer.
Import PyStr PyResult Chunker Embeddings.

Abbreviation bytes := (list Byte.byte).

(** [SharePointDocument], with the fields the indexer reads. *)
Record SharePointDocument := {
  doc_id : str;
  doc_name : str;
  doc_web_url : str;
  doc_mime_type : str;
}.

Definition is_pdf (d : SharePointDocument) : bool :=
  bool_decide (doc_mime_type d = lit "application/pdf").

Definition is_docx (d : SharePointDocument) : bool :=
  bool_decide (doc_mime_type d
               = lit "application/vnd.openxmlformats-officedocument.wordprocessingml.document")
  || bool_decide (doc_mime_type d = lit "application/msword").

Definition is_supported (d : SharePointDocument) : bool := is_pdf d || is_docx d.

(** One record of the search index, as [index_document] builds it. *)
Record IndexDocument := {
  ix_id : str;
  document_id : str;
  document_name : str;
  chunk_index : nat;
  content : str;
  content_vector : vector;
  created_at : str;
  source_url : str;
}.

(** The calls made on [self.search_client]. *)
Inductive store_op :=
| UploadDocuments (documents : list IndexDocument)
| SearchDocuments (filter : str)
| DeleteDocuments (ids : list str).

(** The search index: its records by key, and the calls it has received. *)
Record index_state := {
  contents : gmap str IndexDocument;
  log : list store_op;
}.

(** [chunk_text] with the fuel that always suffices (see
    [chunk_text_terminates]). *)
Definition chunks_of (text : str) : list str :=
  default [] (chunk_text CHUNK_SIZE CHUNK_OVERLAP (S (length text)) text).

Section Pipeline.
(** The collaborators: SharePoint download, the text extractors (each
    catches its own exceptions and returns the empty string), the hash
    function [hashlib.sha256(s.encode()).hexdigest()], the embeddings
    generator, and the verdicts of the search service: whether a request
    raises, and, when it does not, which of its documents the service
    reports as done ([accepted] for an upload, [deleted] for the key of a
    deletion). *)
Variable download_document : SharePointDocument → result bytes.
Variables (extract_text_from_pdf extract_text_from_docx : bytes → str).
Variable decode_utf8 : bytes → option str.
Variable sha256_hexdigest : str → str.
Variable generate_embeddings_batch : list str → Z → result (list vector).
Variable upload_raises : list IndexDocument → bool.
Variable accepted : IndexDocument → bool.
Variable delete_raises : list str → bool.
Variable deleted : str → bool.
(** [search_filter expr contents] is what
    [search_client.search(search_text="*", filter=expr, select=["id"])]
    yields on an index with these contents: the records the service finds
    for the OData filter [expr], or the exception it raises. *)
Variable search_filter : str → gmap str IndexDocument → result (list IndexDocument).

Definition extract_text (document : SharePointDocument) (content : bytes) : str :=
  if is_pdf document then extract_text_from_pdf content
  else if is_docx document then extract_text_from_docx content
  else default [] (decode_utf8 content).

(** [hashlib.sha256(f"{document.id}_{i}_{chunk[:100]}".encode()).hexdigest()[:32]] *)
Definition chunk_id (document : SharePointDocument) (i : nat) (chunk : str) : str :=
  slice_to
    (sha256_hexdigest
       (doc_id document ++ [UNDERSCORE] ++ str_of_nat i ++ [UNDERSCORE] ++ slice_to chunk 100))
    32.

(** The loop over [enumerate(zip(chunks, embeddings))]. *)
Definition documents_to_index (document : SharePointDocument) (now : str)
    (chunks : list str) (embeddings : list vector) : list IndexDocument :=
  imap (λ i '(chunk, embedding),
          {| ix_id := chunk_id document i chunk;
             document_id := doc_id document;
             document_name := doc_name document;
             chunk_index := i;
             content := chunk;
             content_vector := embedding;
             created_at := now ++ lit "Z";
             source_url := doc_web_url document |})
       (zip chunks embeddings).

(** [search_client.upload_documents]: insert-or-replace by key, with one
    result per document. *)
Definition upsert (m : gmap str IndexDocument) (d : IndexDocument)
    : gmap str IndexDocument :=
  if accepted d then <[ix_id d := d]> m else m.

Definition upload_documents (documents : list IndexDocument) (st : index_state)
    : result (list bool) * index_state :=
  let log' := log st ++ [UploadDocuments documents] in
  if upload_raises documents
  then (Raise "HttpResponseError", {| contents := contents st; log := log' |})
  else (Ok (accepted <$> documents),
        {| contents := foldl upsert (contents st) documents; log := log' |}).

(** [now] is [datetime.utcnow().isoformat()] as read by this call. *)
Definition index_document (document : SharePointDocument) (now : str)
    (st : index_state) : result nat * index_state :=
  match download_document document with
  | Raise e => (Raise e, st)
  | Ok content =>
      let text := extract_text document content in
      if negb (truthy text) then (Ok 0%nat, st)
      else
        let chunks := chunks_of text in
        if negb (truthy chunks) then (Ok 0%nat, st)
        else
          match generate_embeddings_batch chunks 100 with
          | Raise e => (Raise e, st)
          | Ok embeddings =>
              let docs := documents_to_index document now chunks embeddings in
              match upload_documents docs st with
              | (Raise e, st') => (Raise e, st')
              | (Ok result, st') =>
                  let succeeded := length (filter (λ r, r = true) result) in
                  (Ok succeeded, st')
              end
          end
  end.

(** The [for doc in supported_docs] loop; [clock k] is the time read while
    the [k]-th supported document is indexed. *)
Fixpoint index_loop (clock : nat → str) (k : nat) (docs : list SharePointDocument)
    (results : gmap str nat) (st : index_state) : gmap str nat * index_state :=
  match docs with
  | [] => (results, st)
  | doc :: rest =>
      let '(outcome, st') := index_document doc (clock k) st in
      let chunk_count := match outcome with Ok n => n | Raise _ => 0%nat end in
      index_loop clock (S k) rest (<[doc_name doc := chunk_count]> results) st'
  end.

(** [documents] is what [self.sharepoint.list_documents()] returned; the
    two calls before the loop are outside its [try]. *)
Definition index_all_documents (clock : nat → str)
    (documents : list SharePointDocument) (st : index_state)
    : gmap str nat * index_state :=
  index_loop clock 0 (filter (λ d, is_supported d = true) documents) ∅ st.

(** [f"document_id eq '{document_id}'"]: the id is interpolated as it is,
    a single quote in it is not doubled. *)
Definition document_id_filter (id : str) : str :=
  lit "document_id eq '" ++ id ++ lit "'".

Definition search_document_id (id : str) (st : index_state)
    : result (list IndexDocument) * index_state :=
  (search_filter (document_id_filter id) (contents st),
   {| contents := contents st;
      log := log st ++ [SearchDocuments (document_id_filter id)] |}).

(** [search_client.delete_documents]: one result per key, which the
    caller below does not read. *)
Definition delete_documents (ids : list str) (st : index_state)
    : result (list bool) * index_state :=
  let log' := log st ++ [DeleteDocuments ids] in
  if delete_raises ids
  then (Raise "HttpResponseError", {| contents := contents st; log := log' |})
  else (Ok (deleted <$> ids),
        {| contents := foldr delete (contents st) (filter (λ k, deleted k = true) ids);
           log := log' |}).

Definition delete_document_chunks (id : str) (st : index_state)
    : result nat * index_state :=
  match search_document_id id st with
  | (Raise e, st1) => (Raise e, st1)
  | (Ok results, st1) =>
      let chunk_ids := ix_id <$> results in
      if truthy chunk_ids then
        match delete_documents chunk_ids st1 with
        | (Raise e, st2) => (Raise e, st2)
        | (Ok _, st2) => (Ok (length chunk_ids), st2)
        end
      else (Ok (length chunk_ids), st1)
  end.

End Pipeline.

(** The record keys sent to [upload_documents] between two states of the
    index, read off the operation log. *)
Definition uploaded_ids (op : store_op) : list str :=
  match op with
  | UploadDocuments documents => ix_id <$> documents
  | _ => []
  end.

Definition ids_written (st st' : index_state) : list str :=
  drop (length (log st)) (log st') ≫= uploaded_ids.

Definition has_delete (ops : list store_op) : bool :=
  existsb (λ op, match op with DeleteDocuments _ => true | _ => false end) ops.

(** The stored records of a document. *)
Definition stored_chunks (id : str) (st : index_state) : list IndexDocument :=
  filter (λ r, document_id r = id) (map_to_list (contents st)).*2.

(** What the search service promises for the filter [document_id eq 'X']
    when [X] holds no single quote: when it answers, it answers with the
    records whose [document_id] is [X], in some order. *)
Definition answers_document_id_filter
    (search_filter : str → gmap str IndexDocument → result (list IndexDocument)) : Prop :=
  ∀ id contents results,
    QUOTE ∉ id →
    search_filter (document_id_filter id) contents = Ok results →
    results ≡ₚ filter (λ r, document_id r = id) (map_to_list contents).*2.

(** A simulated search service that knows the filters of the form
    [document_id eq 'X'] and finds nothing for any other text. *)
Definition sample_search_filter (filter_text : str) (contents : gmap str IndexDocument)
    : result (list IndexDocument) :=
  Ok (filter (λ r, document_id_filter (document_id r) = filter_text)
        (map_to_list contents).*2).

(** The invariant of an index whose key field is [id]: every record is
    stored under its own [id]. *)
Definition keyed_by_id (st : index_state) : Prop :=
  ∀ k r, contents st !! k = Some r → ix_id r = k.

(** A small simulated deployment: PDF documents named after their id, a
    library whose document [broken] cannot be downloaded, an extractor that
    finds the same text in every file, the identity in place of the hash
    function, and a search service that accepts everything. *)
Definition sample_document (name : str) : SharePointDocument :=
  {| doc_id := name;
     doc_name := name ++ lit ".pdf";
     doc_web_url := lit "https://sharepoint.example/" ++ name;
     doc_mime_type := lit "application/pdf" |}.

Definition sample_download (d : SharePointDocument) : result bytes :=
  if bool_decide (doc_id d = lit "broken") then Raise "HTTPStatusError" else Ok [].

Definition sample_pdf_text (content : bytes) : str :=
  lit "Leave policy. Staff receive annual leave.".

Definition sample_docx_text (content : bytes) : str := [].

Definition sample_decode_utf8 (content : bytes) : option str := None.

Definition sample_digest (s : str) : str := s.

Definition sample_generator (texts : list str) (batch_size : Z) : result (list vector) :=
  Ok (sample_embedding <$> texts).

Definition accept_all {A} (x : A) : bool := true.
Definition never_raises {A} (x : A) : bool := false.

Definition empty_index : index_state := {| contents := ∅; log := [] |}.

Definition sample_index_document :=
  index_document sample_download sample_pdf_text sample_docx_text sample_decode_utf8
    sample_digest sample_generator never_raises accept_all.

Definition sample_index_all_documents :=
  index_all_documents sample_download sample_pdf_text sample_docx_text sample_decode_utf8
    sample_digest sample_generator never_raises accept_all.

Definition sample_clock (k : nat) : str := lit "2024-01-01T00:00:0" ++ str_of_nat k.

Definition always_raises {A} (x : A) : bool := true.

(** The index after a bulk run over three documents of the library. *)
Definition sample_index : index_state :=
  (sample_index_all_documents sample_clock
     [sample_document (lit "leave"); sample_document (lit "broken");
      sample_document (lit "travel")] empty_index).2.

End Indexer.

(** ** [PolicyRetriever]: search and context expansion *)

Module Retriever.
Import PyStr PyResult PySort Embeddings.

(** One hit of the search service: a dictionary whose optional keys are
    read with [get] and a default. *)
Record Hit := {
  hit_id : str;
  hit_document_name : str;
  hit_content : str;
  hit_source_url : option str;
  hit_chunk_index : option Z;
  hit_score : option Q;
}.

Record RetrievalResult := {
  id : str;
  document_name : str;
  content : str;
  score : Q;
  source_url : str;
  chunk_index : Z;
}.

(** [score < min_score] *)
Definition Qltb (x y : Q) : bool := negb (Qle_bool y x).

(** The key of the final sort and its order: tuples compare
    lexicographically, strings by code point. *)
Definition sort_key (r : RetrievalResult) : str * Z := (document_name r, chunk_index r).

Definition key_leb (a b : str * Z) : bool :=
  match list_compare N.compare a.1 b.1 with
  | Lt => true
  | Eq => a.2 <=? b.2
  | Gt => false
  end.

(** The sentinel score of context chunks. *)
Definition CONTEXT_SCORE : Q := 1 # 2.

(** Default [min_score] of [search]. *)
Definition DEFAULT_MIN_SCORE : Q := 7 # 10.

Section Retrieval.
(** [generate_embedding] of the embeddings generator, and the two queries
    made on the search client: the hybrid query of [search] (query text,
    vector, optional document name of the filter, [top]) and the filter
    query of [search_with_context] (document name and chunk indices). *)
Variable generate_embedding : str → result vector.
Variable hybrid_search : str → vector → option str → Z → result (list Hit).
Variable neighbor_search : str → gset Z → result (list Hit).

Definition to_result (score : Q) (h : Hit) : RetrievalResult :=
  {| id := hit_id h;
     document_name := hit_document_name h;
     content := hit_content h;
     score := score;
     source_url := default [] (hit_source_url h);
     chunk_index := default 0 (hit_chunk_index h) |}.

(** The [for result in results] loop of [search]. *)
Fixpoint collect (top_k : Z) (min_score : Q) (hits : list Hit)
    (retrieval_results : list RetrievalResult) : list RetrievalResult :=
  match hits with
  | [] => retrieval_results
  | h :: rest =>
      let score := default 0%Q (hit_score h) in
      if Qltb score min_score then collect top_k min_score rest retrieval_results
      else
        let retrieval_results := retrieval_results ++ [to_result score h] in
        if len retrieval_results >=? top_k then retrieval_results
        else collect top_k min_score rest retrieval_results
  end.

Definition search (query : str) (top_k : Z) (min_score : Q)
    (document_filter : option str) : result (list RetrievalResult) :=
  query_vector ← generate_embedding query;
  let filter_expr :=
    match document_filter with
    | Some name => if truthy name then Some name else None
    | None => None
    end in
  hits ← hybrid_search query query_vector filter_expr (top_k * 2);
  mret (collect top_k min_score hits []).

(** [docs_chunks]: the chunk indices of the hits of each document, in the
    order the documents first occur. *)
Fixpoint add_index (name : str) (index : Z) (groups : list (str * list Z))
    : list (str * list Z) :=
  match groups with
  | [] => [(name, [index])]
  | (n, indices) :: rest =>
      if bool_decide (n = name) then (n, indices ++ [index]) :: rest
      else (n, indices) :: add_index name index rest
  end.

Definition docs_chunks (results : list RetrievalResult) : list (str * list Z) :=
  foldl (λ groups r, add_index (document_name r) (chunk_index r) groups) [] results.

(** [range(a, b)] *)
Definition range2 (a b : Z) : list Z := seqZ a (b - a).

Definition additional_indices (context_chunks : Z) (chunk_indices : list Z) : gset Z :=
  list_to_set
    (idx ← chunk_indices;
     offset ← range2 (- context_chunks) (context_chunks + 1);
     let new_idx := idx + offset in
     if (0 <=? new_idx) && negb (bool_decide (new_idx ∈ chunk_indices))
     then [new_idx] else []).

(** The [for doc_name, chunk_indices in docs_chunks.items()] loop. *)
Fixpoint expand (context_chunks : Z) (groups : list (str * list Z))
    (expanded_results : list RetrievalResult) : result (list RetrievalResult) :=
  match groups with
  | [] => Ok expanded_results
  | (doc_name, chunk_indices) :: rest =>
      let additional := additional_indices context_chunks chunk_indices in
      if bool_decide (additional = ∅) then expand context_chunks rest expanded_results
      else
        additional_results ← neighbor_search doc_name additional;
        expand context_chunks rest
          (expanded_results ++ (to_result CONTEXT_SCORE <$> additional_results))
  end.

Definition search_with_context (query : str) (top_k : Z) (context_chunks : Z)
    : result (list RetrievalResult) :=
  results ← search query top_k DEFAULT_MIN_SCORE None;
  if negb (truthy results) || (context_chunks =? 0) then mret results
  else
    expanded_results ← expand context_chunks (docs_chunks results) results;
    mret (sorted key_leb sort_key expanded_results).

End Retrieval.

(** The hits that pass the threshold test of [search], as results, in the
    order of the store. *)
Definition passes (min_score : Q) (h : Hit) : bool :=
  negb (Qltb (default 0%Q (hit_score h)) min_score).

Definition candidates (min_score : Q) (hits : list Hit) : list RetrievalResult :=
  (λ h, to_result (default 0%Q (hit_score h)) h)
    <$> filter (λ h, passes min_score h = true) hits.

(** A simulated index of three ranked chunks and their neighbours. *)
Definition sample_hit (name : string) (index : Z) (score : option Q) : Hit :=
  {| hit_id := lit name ++ lit "#" ++ str_of_nat (Z.to_nat index);
     hit_document_name := lit name;
     hit_content := lit "text";
     hit_source_url := None;
     hit_chunk_index := Some index;
     hit_score := score |}.

Definition sample_hits : list Hit :=
  [sample_hit "travel.pdf" 2 (Some (9 # 10)); sample_hit "leave.pdf" 1 (Some (8 # 10));
   sample_hit "leave.pdf" 5 (Some (6 # 10))].

Definition sample_generate_embedding (query : str) : result vector := Ok [1%Q].

Definition sample_hybrid_search (query : str) (v : vector) (name : option str) (top : Z)
    : result (list Hit) :=
  Ok (take (Z.to_nat top) sample_hits).

Definition sample_neighbor_search (name : str) (indices : gset Z) : result (list Hit) :=
  Ok ((λ i, {| hit_id := name ++ lit "#" ++ str_of_nat (Z.to_nat i);
               hit_document_name := name;
               hit_content := lit "context";
               hit_source_url := None;
               hit_chunk_index := Some i;
               hit_score := None |}) <$> elements indices).

(** [sep.join(parts)] *)
Fixpoint join (sep : str) (parts : list str) : str :=
  match parts with
  | [] => []
  | [part] => part
  | part :: rest => part ++ sep ++ join sep rest
  end.

(** The header line of a document in [format_context]; the four code
    points after the newline are those of the source file. *)
Definition header (current_doc : str) : str :=
  [NEWLINE; 240%N; 376%N; 8220%N; 8222%N; SPACE] ++ lit "**" ++ current_doc ++ lit "**".

(** The [for result in results] loop of [format_context]: [current_doc]
    is [None] before the first result. *)
Fixpoint context_parts (current_doc : option str) (results : list RetrievalResult)
    : list str :=
  match results with
  | [] => []
  | result :: rest =>
      if bool_decide (Some (document_name result) = current_doc)
      then content result :: context_parts current_doc rest
      else header (document_name result) :: content result
           :: context_parts (Some (document_name result)) rest
  end.

(** A [dict] keeps the position of the first assignment of a key and the
    value of the last one. *)
Fixpoint dict_set (key value : str) (d : list (str * str)) : list (str * str) :=
  match d with
  | [] => [(key, value)]
  | (k, v) :: rest =>
      if bool_decide (k = key) then (k, value) :: rest
      else (k, v) :: dict_set key value rest
  end.

(** [{r.document_name: r.source_url for r in results}] *)
Definition unique_docs (results : list RetrievalResult) : list (str * str) :=
  foldl (λ d r, dict_set (document_name r) (source_url r) d) [] results.

Definition NO_CONTEXT : str := lit "No relevant policy information found.".

Definition source_line (entry : str * str) : str :=
  lit "- [" ++ entry.1 ++ lit "](" ++ entry.2 ++ lit ")".

Definition format_context (results : list RetrievalResult) (include_sources : bool) : str :=
  if negb (truthy results) then NO_CONTEXT
  else
    let context := join [NEWLINE; NEWLINE] (context_parts None results) in
    if include_sources then
      let sources := join [NEWLINE] (source_line <$> unique_docs results) in
      context ++ [NEWLINE; NEWLINE] ++ lit "**Sources:**" ++ [NEWLINE] ++ sources
    else context.

(** Results laid out as runs: each run is a document name with the
    consecutive results that carry it. *)
Definition run_results (runs : list (str * list RetrievalResult)) : list RetrievalResult :=
  runs ≫= snd.

Definition run_parts (run : str * list RetrievalResult) : list str :=
  header run.1 :: (content <$> run.2).

Definition sample_search :=
  search sample_generate_embedding sample_hybrid_search.

Definition sample_search_with_context :=
  search_with_context sample_generate_embedding sample_hybrid_search sample_neighbor_search.

End Retriever.

(** * Properties *)

(** ** Facts about the string primitives *)

Module PyStrFacts.
Import PyStr.

Lemma startswith_length s p : startswith s p = true → (length p ≤ length s)%nat.
Proof.
  revert s; induction p as [|x p IH]; intros [|y s]; simpl; try lia; try done.
  intros [_ H]%andb_true_iff. apply IH in H. lia.
Qed.

Lemma rfind_aux_bounds p s i best :
  rfind_aux p s i best = best
  ∨ (i ≤ rfind_aux p s i best ∧ rfind_aux p s i best + len p ≤ i + len s).
Proof.
  revert i best; induction s as [|c r IH]; intros i best; cbn [rfind_aux].
  - destruct (startswith [] p) eqn:E; [right|by left].
    apply startswith_length in E. unfold len. simpl in *. lia.
  - destruct (IH (i + 1) (if startswith (c :: r) p then i else best)) as [->|[H1 H2]].
    + destruct (startswith (c :: r) p) eqn:E; [right|by left].
      apply startswith_length in E. unfold len. simpl in *. lia.
    + right. unfold len in *. simpl length. lia.
Qed.

Lemma rfind_bounds s p :
  rfind s p = -1 ∨ (0 ≤ rfind s p ∧ rfind s p + len p ≤ len s).
Proof. unfold rfind. destruct (rfind_aux_bounds p s 0 (-1)); [by left|right; lia]. Qed.

Lemma lstrip_length s : (length (lstrip s) ≤ length s)%nat.
Proof. induction s as [|c r IH]; simpl; [lia|]. destruct (isspace c); simpl; lia. Qed.

Lemma strip_length s : (length (strip s) ≤ length s)%nat.
Proof.
  unfold strip, rstrip. rewrite length_reverse.
  etrans; [apply lstrip_length|]. rewrite length_reverse. apply lstrip_length.
Qed.

Lemma sub_spaces_length in_run s : (length (sub_spaces in_run s) ≤ length s)%nat.
Proof.
  revert in_run; induction s as [|c r IH]; intros in_run; simpl; [lia|].
  destruct (isspace c); [destruct in_run|]; simpl;
    try pose proof (IH true); try pose proof (IH false); lia.
Qed.

Lemma strip_len (s : str) : len (strip s) ≤ len s.
Proof. unfold len. pose proof (strip_length s). lia. Qed.

Lemma len_nonneg {A} (s : list A) : 0 ≤ len s.
Proof. unfold len. lia. Qed.

Lemma slice_len {A} (s : list A) a b : 0 ≤ a → 0 ≤ b → len (slice s a b) ≤ Z.max 0 (b - a).
Proof.
  intros Ha Hb. unfold slice, clamp_index, len.
  rewrite length_take, length_drop.
  destruct (Z.ltb_spec a 0), (Z.ltb_spec b 0); lia.
Qed.

Lemma slice_len_exact {A} (s : list A) a b :
  0 ≤ a → a ≤ b → b ≤ len s → len (slice s a b) = b - a.
Proof.
  intros Ha Hb Hl. unfold slice, clamp_index, len in *.
  rewrite length_take, length_drop.
  destruct (Z.ltb_spec a 0), (Z.ltb_spec b 0); lia.
Qed.

Lemma slice_from_len {A} (s : list A) a : 0 ≤ a → len (slice_from s a) ≤ Z.max 0 (len s - a).
Proof.
  intros Ha. unfold slice_from, clamp_index, len.
  rewrite length_drop. destruct (Z.ltb_spec a 0); lia.
Qed.

End PyStrFacts.

(** ** The chunking loop *)

Module ChunkerFacts.
Import PyStr PyStrFacts Chunker.

Section WithConfiguration.
Variables (size overlap : Z).
Hypothesis size_pos : 0 < size.

Lemma sentence_break_bounds patterns search_text search_start start :
  let b := sentence_break size patterns search_text search_start start in
  b = -1 ∨ (start + size / 2 < b ∧ b ≤ search_start + len search_text).
Proof.
  induction patterns as [|p ps IH]; simpl; [by left|].
  destruct (Z.eqb_spec (rfind search_text p) (-1)); [exact IH|].
  destruct (Z.gtb_spec (search_start + rfind search_text p + len p) (start + size / 2));
    [|exact IH].
  right. destruct (rfind_bounds search_text p); lia.
Qed.

(** The break chosen for a window that does not reach the end of the
    text lies past the midpoint and within the search slack. *)
Lemma choose_break_bounds text start :
  0 ≤ start → start + size < len text →
  start + size / 2 < choose_break size text start
  ∧ choose_break size text start ≤ start + size + 100.
Proof.
  intros Hs Hl. unfold choose_break.
  assert (Hhalf : size / 2 < size) by (apply Z.div_lt; lia).
  set (ss := Z.max (start + size - 100) start).
  set (se := Z.min (start + size + 100) (len text)).
  pose proof (sentence_break_bounds sentence_endings (slice text ss se) ss start) as Hb.
  cbv zeta in Hb.
  destruct (Z.eqb_spec (sentence_break size sentence_endings (slice text ss se) ss start) (-1))
    as [_|Hne].
  - destruct (Z.gtb_spec (rfind (slice text start (start + size + 50)) [SPACE]) (size / 2))
      as [Hgt|_]; [|lia].
    destruct (rfind_bounds (slice text start (start + size + 50)) [SPACE]) as [?|[_ Hr]];
      [lia|].
    pose proof (slice_len text start (start + size + 50)).
    unfold len in Hr at 1. simpl in Hr. lia.
  - destruct Hb as [?|[Hb1 Hb2]]; [done|].
    rewrite slice_len_exact in Hb2 by (subst ss se; lia).
    subst se. lia.
Qed.

Lemma iterate_last text start chunk :
  0 ≤ start → iterate size overlap text start = LastChunk chunk →
  len chunk ≤ size.
Proof.
  intros Hs. unfold iterate.
  destruct (Z.geb_spec (start + size) (len text)); [|done].
  intros [= <-]. etrans; [apply strip_len|].
  pose proof (slice_from_len text start). lia.
Qed.

Lemma iterate_advance text start best_break chunk next_start :
  0 ≤ start →
  iterate size overlap text start = Advance best_break chunk next_start →
  start + size / 2 < best_break
  ∧ len chunk ≤ size + 100
  ∧ 0 ≤ next_start
  ∧ best_break - Z.max 0 overlap ≤ next_start.
Proof.
  intros Hs. unfold iterate.
  destruct (Z.geb_spec (start + size) (len text)); [done|].
  intros [= <- <- <-].
  destruct (choose_break_bounds text start) as [H1 H2]; [lia..|].
  assert (0 ≤ size / 2) by (apply Z.div_pos; lia).
  split; [done|]. split.
  - etrans; [apply strip_len|].
    pose proof (slice_len text start (choose_break size text start)). lia.
  - destruct (Z.ltb_spec (choose_break size text start - overlap) 0); lia.
Qed.

(** Every chunk the loop appends is at most [size + 100] long. *)
Lemma chunk_loop_lengths fuel text start chunks result :
  0 ≤ start →
  Forall (λ c, len c.2 ≤ size + 100) chunks →
  chunk_loop size overlap fuel text start chunks = Some result →
  Forall (λ c, len c.2 ≤ size + 100) result.
Proof.
  revert start chunks; induction fuel as [|fuel IH]; intros start chunks Hs Hc; simpl;
    [done|].
  destruct (Z.ltb_spec start (len text)); [|by intros [= <-]].
  destruct (iterate size overlap text start) as [c|bb c next] eqn:E.
  - intros [= <-]. apply Forall_app; split; [done|].
    apply Forall_singleton. simpl. apply iterate_last in E; lia.
  - apply iterate_advance in E as (_ & Hlen & Hnext & _); [|done].
    apply IH; [done|]. destruct (truthy c); [|done].
    apply Forall_app; split; [done|]. by apply Forall_singleton.
Qed.

Lemma chunk_windows_lengths fuel text result :
  chunk_windows size overlap fuel text = Some result →
  Forall (λ c, len c.2 ≤ size + 100) result.
Proof.
  unfold chunk_windows.
  destruct (Z.leb_spec (len (normalize text)) size).
  - intros [= <-]. destruct (truthy _); [|done].
    apply Forall_singleton. simpl. lia.
  - by apply chunk_loop_lengths.
Qed.

Hypothesis overlap_small : overlap ≤ size / 2.

(** With an overlap of at most half the window the start advances on
    every pass, so the loop ends within [len text - start + 1] passes. *)
Lemma chunk_loop_terminates fuel text start chunks :
  0 ≤ start → (Z.to_nat (len text - start) < fuel)%nat →
  is_Some (chunk_loop size overlap fuel text start chunks).
Proof.
  revert start chunks; induction fuel as [|fuel IH]; intros start chunks Hs Hf; simpl;
    [lia|].
  destruct (Z.ltb_spec start (len text)); [|by eexists].
  destruct (iterate size overlap text start) as [c|bb c next] eqn:E; [by eexists|].
  apply iterate_advance in E as (Hbb & _ & Hnext & Hadv); [|done].
  assert (0 ≤ size / 2) by (apply Z.div_pos; lia).
  apply IH; [done|]. lia.
Qed.

Lemma chunk_loop_fuel_irrelevant fuel fuel' text start chunks result :
  (fuel ≤ fuel')%nat →
  chunk_loop size overlap fuel text start chunks = Some result →
  chunk_loop size overlap fuel' text start chunks = Some result.
Proof.
  revert fuel' start chunks; induction fuel as [|fuel IH];
    intros [|fuel'] start chunks Hle; simpl; try done; try lia.
  destruct (_ <? _); [|done].
  destruct (iterate size overlap text start); [done|].
  apply IH. lia.
Qed.

End WithConfiguration.

Lemma normalize_length text : (length (normalize text) ≤ length text)%nat.
Proof.
  unfold normalize. etrans; [apply strip_length|apply sub_spaces_length].
Qed.

Lemma chunk_windows_terminates size overlap text :
  0 < size → overlap ≤ size / 2 →
  ∃ windows, ∀ fuel, (length text < fuel)%nat →
    chunk_windows size overlap fuel text = Some windows.
Proof.
  intros Hsize Hov. unfold chunk_windows.
  destruct (len (normalize text) <=? size); [by eexists|].
  destruct (chunk_loop_terminates size overlap Hsize Hov
              (S (length (normalize text))) (normalize text) 0 []) as [w Hw];
    [done|unfold len; lia|].
  exists w. intros fuel Hf.
  eapply chunk_loop_fuel_irrelevant; [|exact Hw].
  pose proof (normalize_length text). lia.
Qed.

(** C4: with the configured target size 1000 and overlap 200, every chunk
    that [chunk_text] returns, on any input text, is at most
    [CHUNK_SIZE + 100] characters long. *)
Theorem chunk_text_length_bound fuel text chunks :
  chunk_text CHUNK_SIZE CHUNK_OVERLAP fuel text = Some chunks →
  Forall (λ chunk, len chunk ≤ CHUNK_SIZE + 100) chunks.
Proof.
  unfold chunk_text.
  destruct (chunk_windows _ _ _ _) as [windows|] eqn:E; [|done].
  intros [= <-]. apply chunk_windows_lengths in E; [|done].
  by apply Forall_fmap.
Qed.

Lemma chunk_text_length_bound_witness :
  chunk_text CHUNK_SIZE CHUNK_OVERLAP 2 sample_text
  = Some [strip (slice (normalize sample_text) 0 1098);
          strip (slice_from (normalize sample_text) 898)]
  ∧ Forall (λ chunk, len chunk ≤ CHUNK_SIZE + 100)
      [strip (slice (normalize sample_text) 0 1098);
       strip (slice_from (normalize sample_text) 898)].
Proof.
  assert (H : chunk_text CHUNK_SIZE CHUNK_OVERLAP 2 sample_text
              = Some [strip (slice (normalize sample_text) 0 1098);
                      strip (slice_from (normalize sample_text) 898)])
    by (vm_compute; reflexivity).
  split; [exact H|exact (chunk_text_length_bound _ _ _ H)].
Defined.

(** C5: for every input string [chunk_text] returns a list of chunks
    (any fuel above the length of the input is enough, and the result
    does not depend on it), because every pass of the loop that goes on
    picks a break strictly past the window start (past the midpoint of
    the window) and, after the overlap is taken off, a next window start
    that is still strictly larger than the current one. *)
Theorem chunk_text_terminates text :
  (∃ chunks, ∀ fuel, (length text < fuel)%nat →
     chunk_text CHUNK_SIZE CHUNK_OVERLAP fuel text = Some chunks)
  ∧ (∀ (t : str) start best_break chunk next_start,
       0 ≤ start →
       iterate CHUNK_SIZE CHUNK_OVERLAP t start = Advance best_break chunk next_start →
       start + CHUNK_SIZE / 2 < best_break ∧ start < next_start).
Proof.
  split.
  - destruct (chunk_windows_terminates CHUNK_SIZE CHUNK_OVERLAP text) as [w Hw];
      [done..|].
    exists (w.*2). intros fuel Hf. unfold chunk_text. by rewrite Hw.
  - intros t start bb c next Hs E.
    apply iterate_advance in E as (Hbb & _ & _ & Hadv); [|done..].
    split; [done|]. revert Hbb Hadv. unfold CHUNK_SIZE, CHUNK_OVERLAP.
    change (1000 / 2) with 500. lia.
Qed.

Lemma chunk_text_terminates_witness :
  (length sample_text <? 1501)%nat = true
  ∧ is_Some (chunk_text CHUNK_SIZE CHUNK_OVERLAP 1501 sample_text)
  ∧ iterate CHUNK_SIZE CHUNK_OVERLAP (normalize sample_text) 0
    = Advance 1098 (strip (slice (normalize sample_text) 0 1098)) 898
  ∧ 0 + CHUNK_SIZE / 2 < 1098 ∧ 0 < 898.
Proof.
  assert (Hf : (length sample_text <? 1501)%nat = true) by (vm_compute; reflexivity).
  assert (Hi : iterate CHUNK_SIZE CHUNK_OVERLAP (normalize sample_text) 0
               = Advance 1098 (strip (slice (normalize sample_text) 0 1098)) 898)
    by (vm_compute; reflexivity).
  destruct (chunk_text_terminates sample_text) as [[chunks Hc] Hadv].
  split; [exact Hf|]. split; [|split; [exact Hi|]].
  - exists chunks. apply Hc. by apply Nat.ltb_lt.
  - exact (Hadv _ 0 _ _ _ (Z.le_refl 0) Hi).
Defined.

Lemma chunk_windows_fuel_irrelevant size overlap fuel fuel' text windows :
  (fuel ≤ fuel')%nat →
  chunk_windows size overlap fuel text = Some windows →
  chunk_windows size overlap fuel' text = Some windows.
Proof.
  unfold chunk_windows. intros Hle.
  destruct (len (normalize text) <=? size); [done|].
  by apply chunk_loop_fuel_irrelevant.
Qed.

Lemma sample_windows fuel :
  chunk_windows CHUNK_SIZE CHUNK_OVERLAP (2 + fuel) sample_text
  = Some [(0, strip (slice (normalize sample_text) 0 1098));
          (898, strip (slice_from (normalize sample_text) 898))].
Proof.
  apply (chunk_windows_fuel_irrelevant _ _ 2); [lia|].
  vm_compute. reflexivity.
Qed.

(** C9, as the code has it: for ["A. " * 500] (1499 characters once
    normalized) with target size 1000 and overlap 200, [chunk_text]
    produces exactly 2 chunks; the first is cut at position 1098, right
    after the last [". "] of the search window [900, 1100), and the second
    begins at position 898 = 1098 - 200 of the normalized text. *)
Theorem sample_text_two_chunks fuel :
  let text := normalize sample_text in
  len text = 1499
  ∧ rfind (slice text 900 1100) [DOT; SPACE] = 196
  ∧ iterate CHUNK_SIZE CHUNK_OVERLAP text 0
    = Advance 1098 (strip (slice text 0 1098)) 898
  ∧ chunk_windows CHUNK_SIZE CHUNK_OVERLAP (2 + fuel) sample_text
    = Some [(0, strip (slice text 0 1098)); (898, strip (slice_from text 898))]
  ∧ chunk_text CHUNK_SIZE CHUNK_OVERLAP (2 + fuel) sample_text
    = Some [strip (slice text 0 1098); strip (slice_from text 898)].
Proof.
  cbv zeta. split; [vm_compute; reflexivity|].
  split; [vm_compute; reflexivity|].
  split; [vm_compute; reflexivity|].
  split; [apply sample_windows|].
  unfold chunk_text. rewrite sample_windows. reflexivity.
Qed.

Lemma sample_text_second_chunk_after_800 :
  ¬ (∃ fuel first second_start second,
       chunk_windows CHUNK_SIZE CHUNK_OVERLAP fuel sample_text
         = Some [(0, first); (second_start, second)]
       ∧ second_start ≤ 800).
Proof.
  intros (fuel & c1 & s2 & c2 & H & Hle).
  destruct fuel as [|[|fuel]].
  - vm_compute in H. discriminate.
  - vm_compute in H. discriminate.
  - change (S (S fuel)) with (2 + fuel)%nat in H.
    rewrite sample_windows in H.
    pose proof (f_equal (λ o : option (list (Z * str)),
                           match o with Some [_; (s, _)] => s | _ => 0 end) H) as Hs.
    cbv beta iota in Hs. lia.
Qed.

Lemma unbroken_normalized : normalize unbroken_text = unbroken_text.
Proof. vm_compute. reflexivity. Qed.

Lemma unbroken_loop_stalls fuel chunks :
  chunk_loop 1000 1000 fuel unbroken_text 0 chunks = None.
Proof.
  assert (Hlt : (0 <? len unbroken_text) = true) by (vm_compute; reflexivity).
  assert (Hit : iterate 1000 1000 unbroken_text 0
                = Advance 1000 (slice unbroken_text 0 1000) 0)
    by (vm_compute; reflexivity).
  revert chunks; induction fuel as [|fuel IH]; intros chunks; [done|].
  cbn [chunk_loop]. rewrite Hlt, Hit. apply IH.
Qed.

Lemma overlap_at_least_size_not_rejected :
  ¬ (∀ (size overlap : Z) fuel text chunks,
       size ≤ overlap → chunk_text size overlap fuel text ≠ Some chunks).
Proof.
  intros H.
  apply (H 1000 1200 2%nat unbroken_text
           [slice unbroken_text 0 1000; slice_from unbroken_text 1000]); [lia|].
  vm_compute. reflexivity.
Qed.

(** C6, as the code has it: the chunker has no configuration check.  The
    class constants satisfy overlap < target size; for any other sizes,
    also with overlap >= target size, text that fits the target size is
    returned as one chunk, and longer text enters the loop: with overlap
    1200 the next window starts at the break itself, with overlap 1000 on
    1500 unbroken characters the window start stays at 0 for ever. *)
Theorem chunk_text_has_no_configuration_check :
  CHUNK_OVERLAP < CHUNK_SIZE
  ∧ (∀ size overlap fuel text,
       len (normalize text) ≤ size →
       chunk_text size overlap fuel text
       = Some (if truthy (normalize text) then [normalize text] else []))
  ∧ chunk_text 1000 1200 2 unbroken_text
    = Some [slice unbroken_text 0 1000; slice_from unbroken_text 1000]
  ∧ (∀ fuel, chunk_text 1000 1000 fuel unbroken_text = None).
Proof.
  split; [done|]. split; [|split].
  - intros size overlap fuel text Hle. unfold chunk_text, chunk_windows.
    destruct (Z.leb_spec (len (normalize text)) size); [|lia].
    by destruct (truthy _).
  - vm_compute. reflexivity.
  - intros fuel. unfold chunk_text, chunk_windows. cbv zeta.
    rewrite unbroken_normalized.
    assert (Hlen : (len unbroken_text <=? 1000) = false) by (vm_compute; reflexivity).
    rewrite Hlen. by rewrite unbroken_loop_stalls.
Qed.

Lemma chunk_text_has_no_configuration_check_witness :
  len (normalize (lit "policy"%string)) ≤ 6
  ∧ chunk_text 6 6 0 (lit "policy"%string) = Some [lit "policy"%string].
Proof.
  assert (H : len (normalize (lit "policy"%string)) ≤ 6) by (vm_compute; discriminate).
  split; [exact H|].
  exact (proj1 (proj2 chunk_text_has_no_configuration_check) 6 6 0%nat (lit "policy"%string) H).
Defined.

End ChunkerFacts.

(** ** The stable sort *)

Module PySortFacts.
Import PySort.

Section WithKey.
Context {A K : Type} (leb : K → K → bool) (key : A → K).

Lemma insert_sorted_perm x l : insert_sorted leb key x l ≡ₚ x :: l.
Proof.
  induction l as [|y r IH]; simpl; [done|].
  destruct (leb (key x) (key y)); [done|].
  rewrite IH. apply Permutation_swap.
Qed.

Lemma sorted_perm l : sorted leb key l ≡ₚ l.
Proof.
  induction l as [|x l IH]; simpl; [done|].
  by rewrite insert_sorted_perm, IH.
Qed.

Hypothesis leb_total : ∀ a b, leb a b = true ∨ leb b a = true.
Hypothesis leb_trans : ∀ a b c, leb a b = true → leb b c = true → leb a c = true.

Lemma insert_sorted_sorted x l :
  StronglySorted (key_le leb key) l → StronglySorted (key_le leb key) (insert_sorted leb key x l).
Proof.
  induction 1 as [|y r Hr IH Hy]; simpl; [repeat constructor|].
  destruct (leb (key x) (key y)) eqn:E.
  - constructor; [by constructor|]. constructor; [done|].
    eapply Forall_impl; [exact Hy|]. intros z Hz. by eapply leb_trans.
  - constructor; [done|]. rewrite insert_sorted_perm. constructor; [|done].
    unfold key_le. destruct (leb_total (key x) (key y)); congruence.
Qed.

Lemma sorted_sorted l : StronglySorted (key_le leb key) (sorted leb key l).
Proof.
  induction l as [|x l IH]; simpl; [constructor|]. by apply insert_sorted_sorted.
Qed.

End WithKey.

End PySortFacts.

Module PyResultFacts.
Import PyResult.



Lemma retry3_raise {A} (call : nat → result A) :
  (∀ attempt, is_ok (call attempt) = false) → is_ok (retry3 call) = false.
Proof.
  intros H. unfold retry3.
  pose proof (H 0%nat). pose proof (H 1%nat). pose proof (H 2%nat).
  by destruct (call 0%nat), (call 1%nat), (call 2%nat).
Qed.

Lemma py_range_positive stop step :
  0 < step →
  py_range 0 stop step
  = Ok ((λ k, k * step) <$> seqZ 0 ((stop + step - 1) / step)).
Proof.
  intros Hs. unfold py_range.
  destruct (Z.eqb_spec step 0); [lia|].
  destruct (Z.ltb_spec 0 step); [|lia].
  by rewrite Z.sub_0_r.
Qed.

End PyResultFacts.

Module EmbeddingsFacts.
Import PyStr PyStrFacts PyResult PyResultFacts PySort PySortFacts Embeddings.

Lemma slice_take_drop {A} (l : list A) a b :
  0 ≤ a → a ≤ b →
  slice l a b = take (Z.to_nat (b - a)) (drop (Z.to_nat a) l).
Proof.
  intros Ha Hb. unfold slice, clamp_index, len.
  destruct (Z.ltb_spec a 0), (Z.ltb_spec b 0); try lia.
  destruct (Z.le_gt_cases a (Z.of_nat (length l))).
  - rewrite (Z.min_l a) by done.
    destruct (Z.le_gt_cases b (Z.of_nat (length l))).
    + by rewrite Z.min_l.
    + rewrite Z.min_r by lia.
      rewrite !take_ge; [done|rewrite length_drop; lia..].
  - rewrite !drop_ge by lia. by rewrite !take_nil.
Qed.

Section Generator.
Variable encode : str → result (list N).
Variable decode : list N → str.
Variable create : nat → Z → list str → result (list Embedding).
(** The vector the model assigns to a text. *)
Variable embedding_of : str → vector.






Lemma offsets_S batch_size k :
  offsets batch_size (S k) = offsets batch_size k ++ [Z.of_nat k * batch_size].
Proof. unfold offsets. by rewrite seqZ_S, fmap_app. Qed.

Lemma take_next_batch (processed : list str) batch_size k :
  0 < batch_size →
  take (Z.to_nat (Z.of_nat k * batch_size)) processed
  ++ slice processed (Z.of_nat k * batch_size) (Z.of_nat k * batch_size + batch_size)
  = take (Z.to_nat (Z.of_nat (S k) * batch_size)) processed.
Proof.
  intros Hb. rewrite slice_take_drop by nia.
  rewrite take_take_drop. f_equal. nia.
Qed.

Hypothesis create_permutes : ∀ attempt i batch data,
  create attempt i batch = Ok data → data ≡ₚ response_of embedding_of batch.



Lemma batches_cover (processed : list str) batch_size :
  0 < batch_size →
  take (Z.to_nat (Z.of_nat (Z.to_nat ((len processed + batch_size - 1) / batch_size))
                  * batch_size)) processed = processed.
Proof.
  intros Hb. apply take_ge.
  assert (0 ≤ (len processed + batch_size - 1) / batch_size)
    by (apply Z.div_pos; unfold len; lia).
  pose proof (Z.mul_succ_div_gt (len processed + batch_size - 1) batch_size Hb).
  unfold len in *. nia.
Qed.

(** The first loop gives one processed text per text, in order. *)
Lemma preprocess_all_ok texts processed :
  preprocess_all encode decode texts = Ok processed →
  Forall2 (λ text p, preprocess encode decode text = Ok p) texts processed.
Proof.
  revert processed. induction texts as [|text texts IH]; intros processed; cbn [preprocess_all].
  - intros [= <-]. constructor.
  - destruct (preprocess encode decode text) as [p|e] eqn:Hp; [|done]. cbn.
    destruct (preprocess_all encode decode texts) as [ps|e]; [|done]. cbn.
    intros [= <-]. constructor; [done|by apply IH].
Qed.

Lemma attempt_unfold attempt texts batch_size processed :
  0 < batch_size →
  preprocess_all encode decode texts = Ok processed →
  generate_embeddings_batch_attempt encode decode create attempt texts batch_size
  = foldl (batch_step create attempt processed batch_size) (Ok [])
      (offsets batch_size (Z.to_nat ((len processed + batch_size - 1) / batch_size))).
Proof.
  intros Hb Hprocessed. unfold generate_embeddings_batch_attempt.
  rewrite Hprocessed. cbn [mbind result_bind].
  rewrite py_range_positive by done. cbn [mbind result_bind]. unfold offsets.
  rewrite Z2Nat.id; [done|]. apply Z.div_pos; unfold len; lia.
Qed.

Lemma attempt_raises attempt texts batch_size e :
  preprocess_all encode decode texts = Raise e →
  generate_embeddings_batch_attempt encode decode create attempt texts batch_size
  = Raise e.
Proof. intros H. unfold generate_embeddings_batch_attempt. by rewrite H. Qed.


End Generator.




End EmbeddingsFacts.

Module IndexerFacts.
Import PyStr PyResult Chunker Embeddings Indexer.

Lemma chunks_of_empty : chunks_of [] = [].
Proof. reflexivity. Qed.

Lemma pair_inv {A B} (a a' : A) (b b' : B) : (a, b) = (a', b') → a = a' ∧ b = b'.
Proof. by intros [= -> ->]. Qed.

Lemma Ok_inv {A} (a a' : A) : Ok a = Ok a' → a = a'.
Proof. by intros [= ->]. Qed.

Lemma filter_all_length {A} (P : A → Prop) `{!∀ x, Decision (P x)} (l : list A) :
  length (filter P l) = length l → Forall P l.
Proof.
  induction l as [|x l IH]; [constructor|].
  rewrite filter_cons. destruct (decide (P x)) as [Hx|Hx]; simpl.
  - intros [= Hl]. constructor; auto.
  - intros Hl. pose proof (length_filter P l). lia.
Qed.

Lemma ids_written_same st : ids_written st st = [].
Proof. unfold ids_written. by rewrite drop_all. Qed.

Lemma ids_written_snoc contents0 contents1 log0 op :
  ids_written {| contents := contents0; log := log0 |}
              {| contents := contents1; log := log0 ++ [op] |}
  = uploaded_ids op.
Proof.
  unfold ids_written. simpl. rewrite drop_app_length. simpl. by rewrite app_nil_r.
Qed.

Section Store.
Variable accepted : IndexDocument → bool.

Lemma upsert_dom m d : dom m ⊆ dom (upsert accepted m d).
Proof. unfold upsert. destruct (accepted d); [|done]. rewrite dom_insert_L. set_solver. Qed.

Lemma foldl_upsert_dom_lower docs : ∀ m, dom m ⊆ dom (foldl (upsert accepted) m docs).
Proof.
  induction docs as [|d docs IH]; intros m; simpl; [done|].
  etrans; [apply (upsert_dom m d)|apply IH].
Qed.

Lemma foldl_upsert_dom_upper docs :
  ∀ m, dom (foldl (upsert accepted) m docs) ⊆ dom m ∪ list_to_set (ix_id <$> docs).
Proof.
  induction docs as [|d docs IH]; intros m; simpl; [set_solver|].
  etrans; [apply IH|]. unfold upsert. destruct (accepted d).
  - rewrite dom_insert_L. set_solver.
  - set_solver.
Qed.

Lemma foldl_upsert_dom_all docs :
  Forall (λ d, accepted d = true) docs →
  ∀ m, list_to_set (ix_id <$> docs) ⊆ dom (foldl (upsert accepted) m docs).
Proof.
  induction 1 as [|d docs Hd _ IH]; intros m; simpl; [set_solver|].
  apply union_subseteq. split; [|apply IH].
  etrans; [|apply foldl_upsert_dom_lower].
  unfold upsert. rewrite Hd, dom_insert_L. set_solver.
Qed.

Lemma accepted_all docs :
  length (filter (λ r, r = true) (accepted <$> docs)) = length docs →
  Forall (λ d, accepted d = true) docs.
Proof.
  intros H. rewrite <-(length_fmap accepted) in H.
  apply filter_all_length in H. by apply Forall_fmap in H.
Qed.

End Store.

Section Ids.
Variable sha256_hexdigest : str → str.

Lemma documents_to_index_ids document now chunks embeddings :
  length embeddings = length chunks →
  ix_id <$> documents_to_index sha256_hexdigest document now chunks embeddings
  = imap (chunk_id sha256_hexdigest document) chunks.
Proof.
  intros Hlen. apply list_eq. intros i. unfold documents_to_index.
  rewrite list_lookup_fmap, !list_lookup_imap, lookup_zip_with.
  destruct (chunks !! i) as [chunk|] eqn:Hc; simpl; [|done].
  destruct (lookup_lt_is_Some_2 embeddings i) as [e ->]; [|done].
  rewrite Hlen. by eapply lookup_lt_Some.
Qed.

End Ids.

(** What one run of [index_document] that returns normally does. *)
Section Run.
Variable download_document : SharePointDocument → result bytes.
Variables (extract_text_from_pdf extract_text_from_docx : bytes → str).
Variable decode_utf8 : bytes → option str.
Variable sha256_hexdigest : str → str.
Variable generate_embeddings_batch : list str → Z → result (list vector).
Variable upload_raises : list IndexDocument → bool.
Variable accepted : IndexDocument → bool.

Hypothesis one_vector_per_text :
  ∀ texts vectors, generate_embeddings_batch texts 100 = Ok vectors →
                   length vectors = length texts.

Lemma index_document_ok document now st n st' :
  index_document download_document extract_text_from_pdf extract_text_from_docx
    decode_utf8 sha256_hexdigest generate_embeddings_batch upload_raises accepted
    document now st = (Ok n, st') →
  ∃ content,
    download_document document = Ok content
    ∧ let ids := imap (chunk_id sha256_hexdigest document)
                   (chunks_of (extract_text extract_text_from_pdf extract_text_from_docx
                                 decode_utf8 document content)) in
      ids_written st st' = ids
      ∧ dom (contents st) ⊆ dom (contents st')
      ∧ dom (contents st') ⊆ dom (contents st) ∪ list_to_set ids
      ∧ (n = length ids → list_to_set ids ⊆ dom (contents st')).
Proof.
  unfold index_document. intros H.
  destruct (download_document document) as [content|e]; [|done].
  exists content. split; [done|]. cbv zeta.
  set (text := extract_text _ _ _ document content) in *.
  assert (Hempty : truthy text = false → chunks_of text = []).
  { destruct text; [intros _; apply chunks_of_empty|done]. }
  set (chunks := chunks_of text) in *.
  destruct (truthy text) eqn:Htext; cbn [negb] in H.
  2:{ injection H as <- <-. rewrite Hempty, ids_written_same by done.
      cbn. set_solver. }
  destruct (truthy chunks) eqn:Hchunks; cbn [negb] in H.
  2:{ injection H as <- <-. destruct chunks; [|done].
      rewrite ids_written_same. cbn. set_solver. }
  destruct (generate_embeddings_batch chunks 100) as [embeddings|e] eqn:Hgen; [|done].
  apply one_vector_per_text in Hgen.
  unfold upload_documents in H.
  destruct (upload_raises _); [done|].
  apply pair_inv in H as [Hn%Ok_inv <-]. subst n.
  destruct st as [contents0 log0]; cbn [contents log].
  rewrite ids_written_snoc. cbn [uploaded_ids].
  rewrite (documents_to_index_ids sha256_hexdigest document now chunks embeddings Hgen).
  split; [done|]. split; [apply foldl_upsert_dom_lower|].
  split.
  { rewrite <-(documents_to_index_ids sha256_hexdigest document now chunks embeddings Hgen).
    apply foldl_upsert_dom_upper. }
  intros Hn.
  rewrite <-(documents_to_index_ids sha256_hexdigest document now chunks embeddings Hgen).
  apply foldl_upsert_dom_all, accepted_all.
  rewrite Hn, length_imap.
  unfold documents_to_index. rewrite length_imap, length_zip. lia.
Qed.

End Run.

Section Reindex.
(** Two runs on the same document: the download, the embeddings, the clock
    and the verdicts of the search service may differ between them; the
    extractors and the hash function are the same. *)
Variables (extract_text_from_pdf extract_text_from_docx : bytes → str).
Variable decode_utf8 : bytes → option str.
Variable sha256_hexdigest : str → str.
Variables (download1 download2 : SharePointDocument → result bytes).
Variables (embed1 embed2 : list str → Z → result (list vector)).
Variables (upload_raises1 upload_raises2 : list IndexDocument → bool).
Variables (accepted1 accepted2 : IndexDocument → bool).

(** X1: when a document whose extracted text is unchanged is indexed twice
    and both runs return, with an embeddings generator that returns one
    vector per chunk, the two runs upload the same chunk ids, namely
    [sha256(f"{document.id}_{i}_{chunk[:100]}")[:32]] for the chunks of the
    text in order, and, when the first run reported every chunk as stored,
    the second run leaves the set of stored keys, hence the number of
    records, as it was. *)
Theorem index_document_twice_same_ids document now1 now2 st0 st1 st2 n1 n2 :
  (∀ content1 content2,
     download1 document = Ok content1 → download2 document = Ok content2 →
     extract_text extract_text_from_pdf extract_text_from_docx decode_utf8 document content1
     = extract_text extract_text_from_pdf extract_text_from_docx decode_utf8 document content2) →
  (∀ texts vectors, embed1 texts 100 = Ok vectors → length vectors = length texts) →
  (∀ texts vectors, embed2 texts 100 = Ok vectors → length vectors = length texts) →
  index_document download1 extract_text_from_pdf extract_text_from_docx decode_utf8
    sha256_hexdigest embed1 upload_raises1 accepted1 document now1 st0 = (Ok n1, st1) →
  index_document download2 extract_text_from_pdf extract_text_from_docx decode_utf8
    sha256_hexdigest embed2 upload_raises2 accepted2 document now2 st1 = (Ok n2, st2) →
  ids_written st1 st2 = ids_written st0 st1
  ∧ (∃ content,
       download1 document = Ok content
       ∧ ids_written st0 st1
         = imap (λ i chunk,
                   slice_to
                     (sha256_hexdigest
                        (doc_id document ++ [UNDERSCORE] ++ str_of_nat i ++ [UNDERSCORE]
                         ++ slice_to chunk 100)) 32)
             (chunks_of (extract_text extract_text_from_pdf extract_text_from_docx
                           decode_utf8 document content)))
  ∧ (n1 = length (ids_written st0 st1) →
     dom (contents st2) = dom (contents st1)
     ∧ size (contents st2) = size (contents st1)).
Proof.
  intros Htext Hgen1 Hgen2 Hrun1 Hrun2.
  apply index_document_ok in Hrun1 as (c1 & Hd1 & Hrun1); [|exact Hgen1].
  apply index_document_ok in Hrun2 as (c2 & Hd2 & Hrun2); [|exact Hgen2].
  rewrite <-(Htext c1 c2 Hd1 Hd2) in Hrun2.
  set (ids := imap _ _) in Hrun1, Hrun2.
  destruct Hrun1 as (Hids1 & Hlow1 & Hup1 & Hall1).
  destruct Hrun2 as (Hids2 & Hlow2 & Hup2 & Hall2).
  split; [congruence|].
  split; [exists c1; split; [exact Hd1|exact Hids1]|].
  intros Hn. rewrite Hids1 in Hn. specialize (Hall1 Hn).
  assert (dom (contents st2) = dom (contents st1)) as Hdom.
  { apply set_eq. intros k. split; [|apply Hlow2].
    intros Hk. apply Hup2, elem_of_union in Hk as [Hk|Hk]; [exact Hk|by apply Hall1]. }
  split; [exact Hdom|]. by rewrite <-!size_dom, Hdom.
Qed.

End Reindex.

Lemma sample_generator_length texts vectors :
  sample_generator texts 100 = Ok vectors → length vectors = length texts.
Proof. intros [= <-]. apply length_fmap. Qed.

Lemma index_document_twice_same_ids_witness :
  let doc := sample_document (lit "leave") in
  let st1 := (sample_index_document doc (sample_clock 0) empty_index).2 in
  let st2 := (sample_index_document doc (sample_clock 1) st1).2 in
  ids_written st1 st2 = ids_written empty_index st1
  ∧ size (contents st2) = size (contents st1).
Proof.
  intros doc st1 st2.
  assert (H1 : sample_index_document doc (sample_clock 0) empty_index = (Ok 1%nat, st1))
    by (vm_compute; reflexivity).
  assert (H2 : sample_index_document doc (sample_clock 1) st1 = (Ok 1%nat, st2))
    by (vm_compute; reflexivity).
  assert (Hn : 1%nat = length (ids_written empty_index st1)) by (vm_compute; reflexivity).
  destruct (index_document_twice_same_ids sample_pdf_text sample_docx_text
              sample_decode_utf8 sample_digest sample_download sample_download
              sample_generator sample_generator never_raises never_raises
              accept_all accept_all doc (sample_clock 0) (sample_clock 1)
              empty_index st1 st2 1%nat 1%nat
              (λ _ _ _ _, eq_refl) sample_generator_length sample_generator_length
              H1 H2) as (Hids & _ & Hsize).
  split; [exact Hids|exact (proj2 (Hsize Hn))].
Defined.

Section Bulk.
Variable download_document : SharePointDocument → result bytes.
Variables (extract_text_from_pdf extract_text_from_docx : bytes → str).
Variable decode_utf8 : bytes → option str.
Variable sha256_hexdigest : str → str.
Variable generate_embeddings_batch : list str → Z → result (list vector).
Variable upload_raises : list IndexDocument → bool.
Variable accepted : IndexDocument → bool.

Local Abbreviation index_document :=
  (index_document download_document extract_text_from_pdf extract_text_from_docx
     decode_utf8 sha256_hexdigest generate_embeddings_batch upload_raises accepted).
Local Abbreviation index_loop :=
  (index_loop download_document extract_text_from_pdf extract_text_from_docx
     decode_utf8 sha256_hexdigest generate_embeddings_batch upload_raises accepted).
Local Abbreviation index_all_documents :=
  (index_all_documents download_document extract_text_from_pdf extract_text_from_docx
     decode_utf8 sha256_hexdigest generate_embeddings_batch upload_raises accepted).

Lemma index_loop_app clock pre : ∀ k post results st,
  index_loop clock k (pre ++ post) results st
  = index_loop clock (k + length pre) post
      (index_loop clock k pre results st).1 (index_loop clock k pre results st).2.
Proof.
  induction pre as [|d pre IH]; intros k post results st; simpl.
  - by rewrite Nat.add_0_r.
  - destruct (index_document d (clock k) st) as [outcome st1].
    rewrite IH. by rewrite Nat.add_succ_r.
Qed.

Lemma index_loop_dom clock docs : ∀ k results st,
  dom (index_loop clock k docs results st).1
  = dom results ∪ list_to_set (doc_name <$> docs).
Proof.
  induction docs as [|d docs IH]; intros k results st; simpl.
  - by rewrite union_empty_r_L.
  - destruct (index_document d (clock k) st) as [outcome st1].
    rewrite IH, dom_insert_L. set_solver.
Qed.

Lemma index_loop_lookup_later clock docs name : ∀ k results st,
  name ∉ doc_name <$> docs →
  (index_loop clock k docs results st).1 !! name = results !! name.
Proof.
  induction docs as [|d docs IH]; intros k results st Hname; simpl; [done|].
  apply not_elem_of_cons in Hname as [Hd Hname].
  destruct (index_document d (clock k) st) as [outcome st1].
  rewrite IH by done. by rewrite lookup_insert_ne.
Qed.

(** X2: when [index_document] raises on one supported document, whatever
    the exception, [index_all_documents] goes on with the documents after
    it from the state the failed call left, and records 0 under the name
    of the failed document (the entry stands in the result unless a later
    document has the same name); the result has an entry for the name of
    every supported document and for nothing else. *)
Theorem index_all_documents_isolates_failures clock documents st pre doc post e st' :
  filter (λ d, is_supported d = true) documents = pre ++ doc :: post →
  index_document doc (clock (length pre)) (index_loop clock 0 pre ∅ st).2 = (Raise e, st') →
  index_all_documents clock documents st
  = index_loop clock (S (length pre)) post
      (<[doc_name doc := 0%nat]> (index_loop clock 0 pre ∅ st).1) st'
  ∧ (doc_name doc ∉ doc_name <$> post →
     (index_all_documents clock documents st).1 !! doc_name doc = Some 0%nat)
  ∧ dom (index_all_documents clock documents st).1
    = list_to_set (doc_name <$> filter (λ d, is_supported d = true) documents).
Proof.
  intros Hdocs Hraise.
  assert (Hrun : index_all_documents clock documents st
                 = index_loop clock (S (length pre)) post
                     (<[doc_name doc := 0%nat]> (index_loop clock 0 pre ∅ st).1) st').
  { unfold Indexer.index_all_documents. rewrite Hdocs, index_loop_app, Nat.add_0_l.
    cbn [Indexer.index_loop]. by rewrite Hraise. }
  split; [exact Hrun|]. split.
  - intros Hlater. rewrite Hrun, index_loop_lookup_later by done.
    apply lookup_insert_eq.
  - unfold Indexer.index_all_documents. rewrite index_loop_dom, dom_empty_L.
    by rewrite union_empty_l_L.
Qed.

End Bulk.

Lemma index_all_documents_isolates_failures_witness :
  let documents := [sample_document (lit "leave"); sample_document (lit "broken");
                    sample_document (lit "travel")] in
  (sample_index_all_documents sample_clock documents empty_index).1
    !! (lit "broken.pdf") = Some 0%nat
  ∧ dom (sample_index_all_documents sample_clock documents empty_index).1
    = list_to_set (doc_name <$> documents).
Proof.
  intros documents.
  assert (Hdocs : filter (λ d, is_supported d = true) documents
                  = [sample_document (lit "leave")] ++ sample_document (lit "broken")
                    :: [sample_document (lit "travel")]) by (vm_compute; reflexivity).
  destruct (index_all_documents_isolates_failures sample_download sample_pdf_text
              sample_docx_text sample_decode_utf8 sample_digest sample_generator
              never_raises accept_all sample_clock documents empty_index
              [sample_document (lit "leave")] (sample_document (lit "broken"))
              [sample_document (lit "travel")] "HTTPStatusError"
              (index_loop sample_download sample_pdf_text sample_docx_text
                 sample_decode_utf8 sample_digest sample_generator never_raises
                 accept_all sample_clock 0 [sample_document (lit "leave")] ∅ empty_index).2
              Hdocs ltac:(vm_compute; reflexivity)) as (_ & Hzero & Hdom).
  split.
  - apply Hzero. vm_compute. intros H. 
    repeat (apply elem_of_cons in H as [H|H]; [discriminate H|]).
    by apply elem_of_nil in H.
  - etrans; [exact Hdom|]. rewrite Hdocs. reflexivity.
Defined.

Section Invariant.
Variable download_document : SharePointDocument → result bytes.
Variables (extract_text_from_pdf extract_text_from_docx : bytes → str).
Variable decode_utf8 : bytes → option str.
Variable sha256_hexdigest : str → str.
Variable generate_embeddings_batch : list str → Z → result (list vector).
Variable upload_raises : list IndexDocument → bool.
Variable accepted : IndexDocument → bool.

Lemma foldl_upsert_keyed docs : ∀ m,
  (∀ k r, m !! k = Some r → ix_id r = k) →
  ∀ k r, foldl (upsert accepted) m docs !! k = Some r → ix_id r = k.
Proof.
  induction docs as [|d docs IH]; intros m Hm; [exact Hm|].
  cbn [foldl]. apply IH. unfold upsert. destruct (accepted d); [|exact Hm].
  intros k r. destruct (decide (ix_id d = k)) as [<-|Hne].
  - rewrite lookup_insert_eq. by intros [= <-].
  - rewrite lookup_insert_ne by done. apply Hm.
Qed.

Lemma has_delete_upload ops docs :
  has_delete (ops ++ [UploadDocuments docs]) = has_delete ops.
Proof. unfold has_delete. rewrite existsb_app. cbn. by rewrite orb_false_r. Qed.

Lemma index_document_keeps document now st outcome st' :
  index_document download_document extract_text_from_pdf extract_text_from_docx
    decode_utf8 sha256_hexdigest generate_embeddings_batch upload_raises accepted
    document now st = (outcome, st') →
  (keyed_by_id st → keyed_by_id st')
  ∧ dom (contents st) ⊆ dom (contents st')
  ∧ has_delete (log st') = has_delete (log st).
Proof.
  unfold index_document.
  destruct (download_document document) as [content|e]; [|by intros [= <- <-]].
  set (text := extract_text _ _ _ document content).
  set (chunks := chunks_of text).
  destruct (negb (truthy text)); [by intros [= <- <-]|].
  destruct (negb (truthy chunks)); [by intros [= <- <-]|].
  destruct (generate_embeddings_batch chunks 100) as [embeddings|e];
    [|by intros [= <- <-]].
  unfold upload_documents.
  destruct (upload_raises _); intros [<- <-]%pair_inv; cbn [contents log].
  - split; [done|]. split; [done|apply has_delete_upload].
  - split; [|split; [apply foldl_upsert_dom_lower|apply has_delete_upload]].
    intros Hkeyed. unfold keyed_by_id. cbn [contents]. by apply foldl_upsert_keyed.
Qed.

Lemma index_loop_keeps clock docs : ∀ k results st,
  let st' := (index_loop download_document extract_text_from_pdf extract_text_from_docx
                decode_utf8 sha256_hexdigest generate_embeddings_batch upload_raises
                accepted clock k docs results st).2 in
  (keyed_by_id st → keyed_by_id st')
  ∧ dom (contents st) ⊆ dom (contents st')
  ∧ has_delete (log st') = has_delete (log st).
Proof.
  induction docs as [|d docs IH]; intros k results st; cbn [index_loop]; [done|].
  destruct (index_document _ _ _ _ _ _ _ _ d (clock k) st) as [outcome st1] eqn:Hrun.
  apply index_document_keeps in Hrun as (Hk1 & Hd1 & Hl1).
  destruct (IH (S k) (<[doc_name d := match outcome with Ok n => n | Raise _ => 0%nat end]>
                        results) st1) as (Hk2 & Hd2 & Hl2).
  split; [auto|]. split; [by etrans|congruence].
Qed.

(** X6: a bulk run of [index_all_documents] only ever adds to the index:
    every key stored before is still stored afterwards (chunks of documents
    that are no longer listed, or that now have fewer chunks, are never
    removed), no delete call is made, and an index that stores every record
    under its own id still does so afterwards. *)
Theorem index_all_documents_never_removes clock documents st :
  keyed_by_id st →
  let st' := (index_all_documents download_document extract_text_from_pdf
                extract_text_from_docx decode_utf8 sha256_hexdigest
                generate_embeddings_batch upload_raises accepted clock documents st).2 in
  keyed_by_id st'
  ∧ dom (contents st) ⊆ dom (contents st')
  ∧ has_delete (log st') = has_delete (log st).
Proof.
  intros Hkeyed st'.
  destruct (index_loop_keeps clock (filter (λ d, is_supported d = true) documents)
              0%nat ∅ st) as (Hk & Hd & Hl).
  split; [by apply Hk|]. split; [exact Hd|exact Hl].
Qed.

End Invariant.

Lemma empty_index_keyed : keyed_by_id empty_index.
Proof. intros k r. unfold empty_index. cbn. by rewrite lookup_empty. Qed.

Lemma index_all_documents_never_removes_witness :
  keyed_by_id sample_index
  ∧ dom (contents empty_index) ⊆ dom (contents sample_index)
  ∧ has_delete (log sample_index) = has_delete (log empty_index).
Proof.
  exact (index_all_documents_never_removes sample_download sample_pdf_text
           sample_docx_text sample_decode_utf8 sample_digest sample_generator
           never_raises accept_all sample_clock
           [sample_document (lit "leave"); sample_document (lit "broken");
            sample_document (lit "travel")] empty_index empty_index_keyed).
Defined.

Lemma sample_index_keyed : keyed_by_id sample_index.
Proof.
  apply (index_loop_keeps sample_download sample_pdf_text sample_docx_text
           sample_decode_utf8 sample_digest sample_generator never_raises accept_all
           sample_clock _ 0%nat ∅ empty_index), empty_index_keyed.
Qed.

Section Delete.
Variable delete_raises : list str → bool.
Variable deleted : str → bool.
Variable search_filter : str → gmap str IndexDocument → result (list IndexDocument).

Lemma delete_document_chunks_unfold id st :
  delete_document_chunks delete_raises deleted search_filter id st
  = let searched := log st ++ [SearchDocuments (document_id_filter id)] in
    match search_filter (document_id_filter id) (contents st) with
    | Raise e => (Raise e, {| contents := contents st; log := searched |})
    | Ok results =>
        let chunk_ids := ix_id <$> results in
        if truthy chunk_ids then
          if delete_raises chunk_ids
          then (Raise "HttpResponseError",
                {| contents := contents st;
                   log := searched ++ [DeleteDocuments chunk_ids] |})
          else (Ok (length chunk_ids),
                {| contents := foldr delete (contents st)
                                 (filter (λ k, deleted k = true) chunk_ids);
                   log := searched ++ [DeleteDocuments chunk_ids] |})
        else (Ok (length chunk_ids), {| contents := contents st; log := searched |})
    end.
Proof.
  unfold delete_document_chunks, search_document_id, delete_documents. cbv zeta.
  destruct (search_filter _ _) as [results|e]; [|done].
  destruct (truthy _); [|done]. cbn [contents log]. by destruct (delete_raises _).
Qed.

Lemma has_delete_search ops filter_text :
  has_delete (ops ++ [SearchDocuments filter_text]) = has_delete ops.
Proof. unfold has_delete. rewrite existsb_app. cbn. by rewrite orb_false_r. Qed.

Hypothesis service_contract : answers_document_id_filter search_filter.

Lemma search_finds_stored_chunks id st results :
  QUOTE ∉ id →
  search_filter (document_id_filter id) (contents st) = Ok results →
  results ≡ₚ stored_chunks id st.
Proof. intros Hquote Hsearch. by apply service_contract. Qed.

(** X3: for a document id without a single quote of which the index holds
    no chunk, on a search service that answers the filter
    [document_id eq 'id'] with the records of that document:
    [delete_document_chunks] makes the one search call and no delete call,
    leaves the contents as they are, and returns 0 when the search call
    returns (so a failing delete endpoint cannot make it raise); when the
    search call raises, it raises the same exception. *)
Theorem delete_document_chunks_nothing_stored id st :
  QUOTE ∉ id →
  stored_chunks id st = [] →
  delete_document_chunks delete_raises deleted search_filter id st
  = (match search_filter (document_id_filter id) (contents st) with
     | Ok _ => Ok 0%nat
     | Raise e => Raise e
     end,
     {| contents := contents st;
        log := log st ++ [SearchDocuments (document_id_filter id)] |})
  ∧ has_delete (log (delete_document_chunks delete_raises deleted search_filter id st).2)
    = has_delete (log st).
Proof.
  intros Hquote Hnone.
  assert (Hrun : delete_document_chunks delete_raises deleted search_filter id st
                 = (match search_filter (document_id_filter id) (contents st) with
                    | Ok _ => Ok 0%nat
                    | Raise e => Raise e
                    end,
                    {| contents := contents st;
                       log := log st ++ [SearchDocuments (document_id_filter id)] |})).
  { rewrite delete_document_chunks_unfold. cbv zeta.
    destruct (search_filter _ _) as [results|e] eqn:Hsearch; [|done].
    apply search_finds_stored_chunks in Hsearch; [|done].
    rewrite Hnone in Hsearch. apply Permutation_nil_r in Hsearch as ->. done. }
  split; [exact Hrun|]. rewrite Hrun. cbn [snd log]. apply has_delete_search.
Qed.

(** X4: for a document id without a single quote, on a search service
    that answers the filter [document_id eq 'id'] with the records of that
    document: when [delete_document_chunks] returns, the number it returns
    is the number of stored records whose [document_id] field equals the
    argument, and, unless that number is 0, it has made exactly one delete
    call, with the ids of those records. *)
Theorem delete_document_chunks_count id st n st' :
  QUOTE ∉ id →
  delete_document_chunks delete_raises deleted search_filter id st = (Ok n, st') →
  n = length (stored_chunks id st)
  ∧ (n ≠ 0%nat →
     ∃ results,
       results ≡ₚ stored_chunks id st
       ∧ log st' = log st ++ [SearchDocuments (document_id_filter id);
                              DeleteDocuments (ix_id <$> results)]).
Proof.
  intros Hquote. rewrite delete_document_chunks_unfold. cbv zeta.
  destruct (search_filter _ _) as [results|e] eqn:Hsearch; [|done].
  apply search_finds_stored_chunks in Hsearch; [|done].
  assert (Hlen : length (ix_id <$> results) = length (stored_chunks id st))
    by by rewrite length_fmap, Hsearch.
  destruct (truthy (ix_id <$> results)) eqn:Htruthy.
  - destruct (delete_raises _); [done|]. intros [<-%Ok_inv <-]%pair_inv. cbn [log].
    split; [exact Hlen|]. intros _. exists results. split; [done|].
    by rewrite <-app_assoc.
  - intros [<-%Ok_inv <-]%pair_inv. split; [exact Hlen|].
    destruct results; [|done]. by intros [].
Qed.

Lemma elem_of_stored_chunks id st r :
  r ∈ stored_chunks id st ↔ document_id r = id ∧ ∃ k, contents st !! k = Some r.
Proof.
  unfold stored_chunks. rewrite list_elem_of_filter, list_elem_of_fmap. split.
  - intros [Hid ([k r'] & -> & Hin)]. split; [done|].
    exists k. by apply elem_of_map_to_list.
  - intros [Hid [k Hk]]. split; [done|]. exists (k, r). split; [done|].
    by apply elem_of_map_to_list.
Qed.

(** X5: for a document id without a single quote, on a search service
    that answers the filter [document_id eq 'id'] with the records of that
    document and an index that stores every record under its own id: after
    a [delete_document_chunks] that returns, the contents are the former
    contents without those records of the document whose deletion the
    service carried out.  When it carried out the deletion of every record
    of the document, what is left is the former contents without the
    records whose [document_id] equals the argument, and no chunk of the
    document is stored any more. *)
Theorem delete_document_chunks_removes_document id st n st' :
  QUOTE ∉ id →
  keyed_by_id st →
  delete_document_chunks delete_raises deleted search_filter id st = (Ok n, st') →
  contents st'
  = filter (λ kr, ¬ (document_id kr.2 = id ∧ deleted kr.1 = true)) (contents st)
  ∧ ((∀ r, r ∈ stored_chunks id st → deleted (ix_id r) = true) →
     contents st' = filter (λ kr, document_id kr.2 ≠ id) (contents st)
     ∧ stored_chunks id st' = [])
  ∧ keyed_by_id st'.
Proof.
  intros Hquote Hkeyed. rewrite delete_document_chunks_unfold. cbv zeta.
  destruct (search_filter _ _) as [results|e] eqn:Hsearch; [|done].
  apply search_finds_stored_chunks in Hsearch; [|done].
  set (ids := ix_id <$> results).
  assert (Hids : ∀ k r, contents st !! k = Some r → k ∈ ids ↔ document_id r = id).
  { intros k r Hk. unfold ids. rewrite list_elem_of_fmap. split.
    - intros (r' & -> & Hr'). rewrite Hsearch in Hr'.
      apply elem_of_stored_chunks in Hr' as [Hid [k' Hk']].
      pose proof (Hkeyed _ _ Hk') as <-. congruence.
    - intros Hid. exists r. split; [by rewrite (Hkeyed _ _ Hk)|].
      rewrite Hsearch. apply elem_of_stored_chunks. eauto. }
  assert (Hleft : foldr delete (contents st) (filter (λ k, deleted k = true) ids)
                  = filter (λ kr, ¬ (document_id kr.2 = id ∧ deleted kr.1 = true))
                      (contents st)).
  { apply map_eq. intros k. apply option_eq. intros r.
    rewrite lookup_foldr_delete_Some, map_lookup_filter_Some. cbn.
    split; intros [H1 H2].
    - split; [done|]. intros [Hid Hdel]. apply H1.
      apply list_elem_of_filter. split; [done|]. by apply (Hids k r).
    - split; [|done]. intros [Hdel Hk]%list_elem_of_filter.
      apply H2. split; [|done]. by apply (Hids k r). }
  intros Hrun.
  assert (Hcontents : contents st'
                      = filter (λ kr, ¬ (document_id kr.2 = id ∧ deleted kr.1 = true))
                          (contents st)).
  { destruct (truthy ids) eqn:Htruthy.
    - destruct (delete_raises ids); [done|]. by apply pair_inv in Hrun as [_ <-].
    - apply pair_inv in Hrun as [_ <-]. cbn [contents]. rewrite <-Hleft.
      by destruct ids. }
  split; [exact Hcontents|]. split.
  - intros Hall.
    assert (Hexact : contents st' = filter (λ kr, document_id kr.2 ≠ id) (contents st)).
    { rewrite Hcontents. apply map_filter_ext. intros k r Hk. cbn. split.
      - intros Hnot Hid. apply Hnot. split; [done|].
        rewrite <-(Hkeyed _ _ Hk). apply Hall, elem_of_stored_chunks. eauto.
      - intros Hne [Hid _]. by apply Hne. }
    split; [exact Hexact|].
    apply elem_of_nil_inv. intros r Hr.
    apply elem_of_stored_chunks in Hr as [Hid [k Hk]].
    rewrite Hexact in Hk. apply map_lookup_filter_Some in Hk as [_ Hne]. by apply Hne.
  - intros k r Hk. rewrite Hcontents in Hk.
    apply map_lookup_filter_Some in Hk as [Hk _]. by apply Hkeyed.
Qed.

(** X26: the document id goes into the filter as it is, a single quote
    in it included.  For an id made of an id [x], the text
    "' or document_id eq '" and an id [y], the filter that
    [delete_document_chunks] sends to the search service is the comparison
    for [x], the word " or " and the comparison for [y]; the search call
    logged by the run carries that text. *)
Theorem delete_document_chunks_sends_id_unescaped x y st :
  document_id_filter (x ++ lit "' or document_id eq '" ++ y)
  = document_id_filter x ++ lit " or " ++ document_id_filter y
  ∧ log (delete_document_chunks delete_raises deleted search_filter
           (x ++ lit "' or document_id eq '" ++ y) st).2
    !! length (log st)
    = Some (SearchDocuments (document_id_filter x ++ lit " or " ++ document_id_filter y)).
Proof.
  assert (Hfilter : document_id_filter (x ++ lit "' or document_id eq '" ++ y)
                    = document_id_filter x ++ lit " or " ++ document_id_filter y).
  { unfold document_id_filter. by rewrite <-!app_assoc. }
  split; [exact Hfilter|].
  rewrite delete_document_chunks_unfold, Hfilter. cbv zeta.
  destruct (search_filter _ _) as [results|e]; cbn [snd log].
  2:{ by rewrite lookup_app_r, Nat.sub_diag by done. }
  destruct (truthy _); [destruct (delete_raises _)|]; cbn [snd log];
    rewrite <-?app_assoc; by rewrite lookup_app_r, Nat.sub_diag by done.
Qed.

End Delete.

Lemma document_id_filter_inj a b : document_id_filter a = document_id_filter b → a = b.
Proof.
  unfold document_id_filter. intros H.
  apply app_inv_head in H. by apply app_inv_tail in H.
Qed.

Lemma sample_search_filter_contract : answers_document_id_filter sample_search_filter.
Proof.
  intros id contents results _ [= <-].
  apply reflexive_eq. apply list_filter_iff. intros r. split.
  - apply document_id_filter_inj.
  - by intros ->.
Qed.

Lemma delete_document_chunks_nothing_stored_witness :
  delete_document_chunks always_raises accept_all sample_search_filter (lit "payroll") sample_index
  = (Ok 0%nat, {| contents := contents sample_index;
                  log := log sample_index
                         ++ [SearchDocuments (document_id_filter (lit "payroll"))] |}).
Proof.
  assert (Hquote : QUOTE ∉ lit "payroll") by (apply (bool_decide_unpack _); vm_compute; exact I).
  assert (H : stored_chunks (lit "payroll") sample_index = []) by (vm_compute; reflexivity).
  exact (proj1 (delete_document_chunks_nothing_stored always_raises accept_all sample_search_filter
                  sample_search_filter_contract (lit "payroll") sample_index Hquote H)).
Defined.

Lemma delete_document_chunks_count_witness :
  1%nat = length (stored_chunks (lit "leave") sample_index).
Proof.
  assert (Hquote : QUOTE ∉ lit "leave") by (apply (bool_decide_unpack _); vm_compute; exact I).
  assert (H : delete_document_chunks never_raises accept_all sample_search_filter (lit "leave")
                sample_index
              = (Ok 1%nat, (delete_document_chunks never_raises accept_all sample_search_filter
                              (lit "leave") sample_index).2))
    by (vm_compute; reflexivity).
  exact (proj1 (delete_document_chunks_count never_raises accept_all sample_search_filter
                  sample_search_filter_contract (lit "leave") sample_index 1%nat _
                  Hquote H)).
Defined.

Lemma delete_document_chunks_removes_document_witness :
  stored_chunks (lit "leave")
    (delete_document_chunks never_raises accept_all sample_search_filter (lit "leave")
       sample_index).2 = [].
Proof.
  assert (Hquote : QUOTE ∉ lit "leave") by (apply (bool_decide_unpack _); vm_compute; exact I).
  assert (H : delete_document_chunks never_raises accept_all sample_search_filter (lit "leave")
                sample_index
              = (Ok 1%nat, (delete_document_chunks never_raises accept_all sample_search_filter
                              (lit "leave") sample_index).2))
    by (vm_compute; reflexivity).
  exact (proj2 (proj1 (proj2 (delete_document_chunks_removes_document never_raises
                                accept_all sample_search_filter
                                sample_search_filter_contract (lit "leave")
                                sample_index 1%nat _ Hquote sample_index_keyed H))
                  (λ _ _, eq_refl))).
Defined.

Section Count.
Variable download_document : SharePointDocument → result bytes.
Variables (extract_text_from_pdf extract_text_from_docx : bytes → str).
Variable decode_utf8 : bytes → option str.
Variable sha256_hexdigest : str → str.
Variable generate_embeddings_batch : list str → Z → result (list vector).
Variable upload_raises : list IndexDocument → bool.
Variable accepted : IndexDocument → bool.

(** X22: the number [index_document] returns is the number of uploaded
    records the search service reported as succeeded, so it never exceeds
    the number of records uploaded; and the records uploaded are as many as
    the shorter of the chunk list and the list of vectors: when the
    embeddings generator returns fewer vectors than chunks, the chunks
    beyond them are left out without an error. *)
Theorem index_document_count document now st n st' content :
  download_document document = Ok content →
  index_document download_document extract_text_from_pdf extract_text_from_docx
    decode_utf8 sha256_hexdigest generate_embeddings_batch upload_raises accepted
    document now st = (Ok n, st') →
  let chunks := chunks_of (extract_text extract_text_from_pdf extract_text_from_docx
                             decode_utf8 document content) in
  (n ≤ length (ids_written st st'))%nat
  ∧ (length (ids_written st st') ≤ length chunks)%nat
  ∧ (chunks ≠ [] →
     ∃ embeddings,
       generate_embeddings_batch chunks 100 = Ok embeddings
       ∧ length (ids_written st st') = (length chunks `min` length embeddings)%nat
       ∧ n = length (filter (λ d, accepted d = true)
                       (documents_to_index sha256_hexdigest document now chunks
                          embeddings))).
Proof.
  intros Hdownload. unfold index_document. rewrite Hdownload. cbv zeta.
  set (text := extract_text _ _ _ document content).
  assert (Hempty : truthy text = false → chunks_of text = []).
  { destruct text; [intros _; apply chunks_of_empty|done]. }
  set (chunks := chunks_of text) in *.
  destruct (truthy text) eqn:Htext; cbn [negb].
  2:{ intros [<-%Ok_inv <-]%pair_inv. rewrite Hempty, ids_written_same by done.
      cbn. split; [lia|]. split; [lia|done]. }
  destruct (truthy chunks) eqn:Hchunks; cbn [negb].
  2:{ intros [<-%Ok_inv <-]%pair_inv. destruct chunks; [|done].
      rewrite ids_written_same. cbn. split; [lia|]. split; [lia|done]. }
  destruct (generate_embeddings_batch chunks 100) as [embeddings|e] eqn:Hgen; [|done].
  unfold upload_documents. destruct (upload_raises _); [done|].
  intros [<-%Ok_inv <-]%pair_inv.
  destruct st as [contents0 log0]; cbn [contents log].
  rewrite ids_written_snoc. cbn [uploaded_ids].
  set (docs := documents_to_index sha256_hexdigest document now chunks embeddings).
  assert (Hdocs : length docs = (length chunks `min` length embeddings)%nat).
  { unfold docs, documents_to_index. by rewrite length_imap, length_zip. }
  rewrite !length_fmap.
  assert (Hcount : length (filter (λ r, r = true) (accepted <$> docs))
                   = length (filter (λ d, accepted d = true) docs)).
  { clear. induction docs as [|d docs IH]; [done|].
    rewrite fmap_cons, !filter_cons.
    destruct (decide (accepted d = true)); cbn; by rewrite IH. }
  rewrite Hcount. split; [apply length_filter|]. split; [lia|].
  intros _. exists embeddings. done.
Qed.

End Count.

Lemma index_document_count_witness :
  let doc := sample_document (lit "leave") in
  let st' := (sample_index_document doc (sample_clock 0) empty_index).2 in
  (1 ≤ length (ids_written empty_index st'))%nat
  ∧ (length (ids_written empty_index st')
     ≤ length (chunks_of (extract_text sample_pdf_text sample_docx_text
                            sample_decode_utf8 doc [])))%nat.
Proof.
  intros doc st'.
  assert (Hrun : sample_index_document doc (sample_clock 0) empty_index = (Ok 1%nat, st'))
    by (vm_compute; reflexivity).
  destruct (index_document_count sample_download sample_pdf_text sample_docx_text
              sample_decode_utf8 sample_digest sample_generator never_raises accept_all
              doc (sample_clock 0) empty_index 1%nat st' [] eq_refl Hrun)
    as (Hn & Hlen & _).
  split; [exact Hn|exact Hlen].
Defined.

End IndexerFacts.

Module RetrieverFacts.
Import PyStr PyStrFacts PyResult PySort PySortFacts Embeddings Retriever.

(** The order of the final sort is total and transitive. *)
Lemma N_compare_trans x y z c :
  N.compare x y = c → N.compare y z = c → N.compare x z = c.
Proof.
  destruct c; rewrite ?N.compare_eq_iff, ?N.compare_lt_iff, ?N.compare_gt_iff; lia.
Qed.

Lemma key_leb_total a b : key_leb a b = true ∨ key_leb b a = true.
Proof.
  unfold key_leb. rewrite (list_compare_antisym N.compare N.compare_eq_iff a.1 b.1 N.compare_antisym).
  destruct (list_compare N.compare a.1 b.1); cbn; auto.
  destruct (Z.leb_spec a.2 b.2); [by left|right]. apply Z.leb_le. lia.
Qed.

Lemma key_leb_trans a b c :
  key_leb a b = true → key_leb b c = true → key_leb a c = true.
Proof.
  unfold key_leb.
  destruct (list_compare N.compare a.1 b.1) eqn:Hab; [| |done];
    (destruct (list_compare N.compare b.1 c.1) eqn:Hbc; [| |done]).
  - apply (list_compare_refl N.compare N.compare_eq_iff) in Hab, Hbc.
    rewrite Hab, Hbc.
    rewrite (proj2 (list_compare_refl N.compare N.compare_eq_iff c.1 c.1) eq_refl).
    rewrite !Z.leb_le. lia.
  - apply (list_compare_refl N.compare N.compare_eq_iff) in Hab. by rewrite Hab, Hbc.
  - apply (list_compare_refl N.compare N.compare_eq_iff) in Hbc. by rewrite <-Hbc, Hab.
  - by rewrite (list_compare_trans N.compare N.compare_eq_iff a.1 b.1 c.1
                  N_compare_trans N.compare_antisym Hab Hbc).
Qed.

Lemma Qltb_false x y : Qltb x y = false ↔ (y <= x)%Q.
Proof. unfold Qltb. rewrite negb_false_iff. apply Qle_bool_iff. Qed.

Lemma passes_le m h : passes m h = true ↔ (m <= default 0%Q (hit_score h))%Q.
Proof. unfold passes. rewrite negb_true_iff. apply Qltb_false. Qed.

(** The loop of [search] keeps the first hits that pass the threshold:
    [top_k] of them, and one when [top_k] is smaller than 1. *)
Lemma collect_take top_k min_score hits : ∀ acc,
  collect top_k min_score hits acc
  = acc ++ take (Z.to_nat (Z.max 1 (top_k - len acc))) (candidates min_score hits).
Proof.
  unfold candidates.
  induction hits as [|h hits IH]; intros acc; cbn [collect].
  - rewrite filter_nil. cbn [fmap list_fmap]. by rewrite take_nil, app_nil_r.
  - rewrite filter_cons.
    destruct (Qltb (default 0%Q (hit_score h)) min_score) eqn:Hlt.
    + rewrite decide_False by (unfold passes; by rewrite Hlt). apply IH.
    + rewrite decide_True by (unfold passes; by rewrite Hlt). cbn [fmap list_fmap].
      assert (Hlen : len (acc ++ [to_result (default 0%Q (hit_score h)) h]) = len acc + 1).
      { unfold len. rewrite length_app. cbn. lia. }
      assert (0 ≤ len acc) by (unfold len; lia).
      unfold Z.geb. destruct (Z.compare_spec
        (len (acc ++ [to_result (default 0%Q (hit_score h)) h])) top_k) as [Hc|Hc|Hc].
      * replace (Z.to_nat (Z.max 1 (top_k - len acc))) with 1%nat by lia.
        cbn. by rewrite take_0.
      * rewrite IH, Hlen, <-app_assoc. cbn [app]. do 2 f_equal.
        replace (Z.to_nat (Z.max 1 (top_k - len acc)))
          with (S (Z.to_nat (Z.max 1 (top_k - (len acc + 1))))) by lia.
        done.
      * replace (Z.to_nat (Z.max 1 (top_k - len acc))) with 1%nat by lia.
        cbn. by rewrite take_0.
Qed.

Lemma candidates_length_mono ma mb hits :
  (ma <= mb)%Q →
  (length (candidates mb hits) ≤ length (candidates ma hits))%nat.
Proof.
  intros Hle. unfold candidates. rewrite !length_fmap.
  induction hits as [|h hits IH]; [done|].
  rewrite !filter_cons.
  destruct (decide (passes mb h = true)) as [Hb|Hb].
  - rewrite decide_True; [cbn; lia|].
    apply passes_le. apply passes_le in Hb. by eapply Qle_trans.
  - destruct (decide (passes ma h = true)); cbn; lia.
Qed.

Lemma candidates_scores m hits :
  Forall (λ r, (m <= score r)%Q) (candidates m hits).
Proof.
  unfold candidates. apply Forall_fmap, Forall_forall. intros h Hh.
  apply list_elem_of_filter in Hh as [Hh _]. cbn. by apply passes_le.
Qed.

Section Retrieval.
Variable generate_embedding : str → result vector.
Variable hybrid_search : str → vector → option str → Z → result (list Hit).
Variable neighbor_search : str → gset Z → result (list Hit).

Local Abbreviation search := (search generate_embedding hybrid_search).
Local Abbreviation search_with_context :=
  (search_with_context generate_embedding hybrid_search neighbor_search).

Lemma search_ok query top_k min_score document_filter results :
  search query top_k min_score document_filter = Ok results →
  ∃ query_vector hits,
    generate_embedding query = Ok query_vector
    ∧ hybrid_search query query_vector
        (match document_filter with
         | Some name => if truthy name then Some name else None
         | None => None
         end) (top_k * 2) = Ok hits
    ∧ results = take (Z.to_nat (Z.max 1 top_k)) (candidates min_score hits).
Proof.
  unfold Retriever.search. intros H.
  destruct (generate_embedding query) as [v|e]; [|done]. cbn in H.
  destruct (hybrid_search query v _ (top_k * 2)) as [hits|e] eqn:Hhits; [|done].
  cbn in H. injection H as <-. exists v, hits. split; [done|]. split; [done|].
  rewrite collect_take. cbn [app]. unfold len. cbn [length]. by rewrite Z.sub_0_r.
Qed.

(** X7: for the same query, [top_k] and filter (hence the same candidates
    from the store), raising [min_score] never increases the number of
    results of [search]; every result has a score of at least [min_score],
    and at most [top_k] results are returned when [top_k] is at least 1. *)
Theorem search_min_score_monotone query top_k document_filter ma mb ra rb :
  (ma <= mb)%Q →
  search query top_k ma document_filter = Ok ra →
  search query top_k mb document_filter = Ok rb →
  len rb ≤ len ra
  ∧ Forall (λ r, (mb <= score r)%Q) rb
  ∧ (1 ≤ top_k → len rb ≤ top_k).
Proof.
  intros Hle Ha Hb.
  apply search_ok in Ha as (va & hits_a & Hva & Hhits_a & ->).
  apply search_ok in Hb as (vb & hits_b & Hvb & Hhits_b & ->).
  assert (va = vb) as <- by congruence.
  assert (hits_a = hits_b) as <- by congruence.
  pose proof (candidates_length_mono ma mb hits_a Hle).
  unfold len. rewrite !length_take. split; [lia|]. split.
  - apply Forall_take, candidates_scores.
  - intros Hk. lia.
Qed.

(** X8: the results of [search] are the first candidates of the store, in
    the store's ranking order, among those whose score (0 when the hit has
    none) is not below [min_score]: the first [top_k] of them, and still
    one of them when [top_k] is 0 or negative. *)
Theorem search_keeps_ranking query top_k min_score document_filter results :
  search query top_k min_score document_filter = Ok results →
  ∃ query_vector hits,
    generate_embedding query = Ok query_vector
    ∧ hybrid_search query query_vector
        (match document_filter with
         | Some name => if truthy name then Some name else None
         | None => None
         end) (top_k * 2) = Ok hits
    ∧ results = take (Z.to_nat (Z.max 1 top_k)) (candidates min_score hits)
    ∧ results `sublist_of` ((λ h, to_result (default 0%Q (hit_score h)) h) <$> hits)
    ∧ (top_k ≤ 0 → candidates min_score hits ≠ [] → length results = 1%nat).
Proof.
  intros H. apply search_ok in H as (v & hits & Hv & Hhits & ->).
  exists v, hits. split; [done|]. split; [done|]. split; [done|]. split.
  - etrans; [apply sublist_take|]. unfold candidates.
    apply fmap_sublist, sublist_filter.
  - intros Hk Hne. replace (Z.to_nat (Z.max 1 top_k)) with 1%nat by lia.
    destruct (candidates min_score hits); [done|]. cbn. by rewrite take_0.
Qed.

Lemma expand_appends context_chunks groups : ∀ acc out,
  expand neighbor_search context_chunks groups acc = Ok out →
  ∃ neighbors,
    out = acc ++ neighbors ∧ Forall (λ r, score r = CONTEXT_SCORE) neighbors.
Proof.
  induction groups as [|[doc_name chunk_indices] groups IH]; intros acc out; cbn [expand].
  - intros [= <-]. exists []. by rewrite app_nil_r.
  - destruct (bool_decide _); [apply IH|].
    destruct (neighbor_search doc_name _) as [additional|e]; [|done]. cbn.
    intros H. apply IH in H as (neighbors & -> & Hscore).
    exists ((to_result CONTEXT_SCORE <$> additional) ++ neighbors).
    split; [by rewrite app_assoc|]. apply Forall_app. split; [|done].
    by apply Forall_fmap, Forall_true.
Qed.

(** X9: when [search_with_context] returns, its result is a rearrangement
    of the results of [search] (same query and [top_k], threshold 0.7, no
    filter) followed by context chunks that all carry the score 0.5; with
    [context_chunks = 0] it is the result of [search] itself, in ranking
    order. *)
Theorem search_with_context_extends_search query top_k context_chunks results out :
  search query top_k DEFAULT_MIN_SCORE None = Ok results →
  search_with_context query top_k context_chunks = Ok out →
  (∃ neighbors,
     out ≡ₚ results ++ neighbors
     ∧ Forall (λ r, score r = CONTEXT_SCORE) neighbors)
  ∧ (∀ r, r ∈ results → r ∈ out)
  ∧ (context_chunks = 0 → out = results).
Proof.
  intros Hsearch. unfold Retriever.search_with_context. rewrite Hsearch. cbn.
  intros Hout.
  assert (Hcases : out = results ∧ (negb (truthy results) || (context_chunks =? 0)) = true
                   ∨ (∃ neighbors, out = sorted key_leb sort_key (results ++ neighbors)
                        ∧ Forall (λ r, score r = CONTEXT_SCORE) neighbors
                        ∧ context_chunks ≠ 0)).
  { destruct (negb (truthy results) || (context_chunks =? 0)) eqn:Hearly.
    - left. by injection Hout as <-.
    - right. apply orb_false_iff in Hearly as [_ Hc%Z.eqb_neq].
      destruct (expand _ _ _ _) as [expanded|e] eqn:Hexpand; [|done].
      cbn in Hout. injection Hout as <-.
      apply expand_appends in Hexpand as (neighbors & -> & Hscore). eauto. }
  destruct Hcases as [[-> _]|(neighbors & -> & Hscore & Hc)].
  - split; [|done]. exists []. by rewrite app_nil_r.
  - split; [exists neighbors; split; [apply sorted_perm|done]|].
    split; [|done]. intros r Hr. rewrite sorted_perm. apply elem_of_app. by left.
Qed.

(** X10: when [context_chunks] is not 0 and [search_with_context] returns,
    the result is in ascending order of [(document_name, chunk_index)],
    names compared as strings, code point by code point. *)
Theorem search_with_context_sorted query top_k context_chunks out :
  context_chunks ≠ 0 →
  search_with_context query top_k context_chunks = Ok out →
  StronglySorted (key_le key_leb sort_key) out.
Proof.
  intros Hc. unfold Retriever.search_with_context.
  destruct (Retriever.search _ _ _ _ _ _) as [results|e]; [|done]. cbn.
  destruct results as [|r results]; cbn.
  - intros [= <-]. constructor.
  - apply Z.eqb_neq in Hc. rewrite Hc.
    destruct (expand _ _ _ _) as [expanded|e]; [|done]. cbn. intros [= <-].
    apply sorted_sorted; [apply key_leb_total|apply key_leb_trans].
Qed.

End Retrieval.

(** X11: the indices [search_with_context] asks for around the hits of one
    document are exactly the non-negative indices within [context_chunks]
    of a hit that are not themselves hits of that document. *)
Theorem additional_indices_spec context_chunks chunk_indices i :
  i ∈ additional_indices context_chunks chunk_indices
  ↔ (0 ≤ i) ∧ (i ∉ chunk_indices)
    ∧ ∃ idx, idx ∈ chunk_indices ∧ idx - context_chunks ≤ i ≤ idx + context_chunks.
Proof.
  unfold additional_indices, range2.
  rewrite elem_of_list_to_set, list_elem_of_bind. split.
  - intros (idx & Hi & Hidx). apply list_elem_of_bind in Hi as (offset & Hi & Hoffset).
    apply elem_of_seqZ in Hoffset.
    destruct (0 <=? idx + offset) eqn:Hnonneg; [|by apply elem_of_nil in Hi].
    destruct (bool_decide (idx + offset ∈ chunk_indices)) eqn:Hin;
      [by apply elem_of_nil in Hi|].
    apply list_elem_of_singleton in Hi as ->.
    apply bool_decide_eq_false in Hin. apply Z.leb_le in Hnonneg.
    split; [done|]. split; [done|]. exists idx. split; [done|]. lia.
  - intros (Hnonneg & Hnotin & idx & Hidx & Hnear). exists idx. split; [|done].
    apply list_elem_of_bind. exists (i - idx). split; [|apply elem_of_seqZ; lia].
    replace (idx + (i - idx)) with i by lia.
    rewrite (proj2 (Z.leb_le 0 i) Hnonneg), bool_decide_eq_false_2 by done.
    apply list_elem_of_singleton. done.
Qed.

Lemma add_index_names name index groups :
  (add_index name index groups).*1
  = if bool_decide (name ∈ groups.*1) then groups.*1 else groups.*1 ++ [name].
Proof.
  induction groups as [|[n indices] groups IH]; cbn [add_index fmap list_fmap fst].
  - by rewrite bool_decide_eq_false_2 by apply not_elem_of_nil.
  - destruct (bool_decide (n = name)) eqn:Hn.
    + apply bool_decide_eq_true in Hn as ->. cbn.
      by rewrite bool_decide_eq_true_2 by apply list_elem_of_here.
    + apply bool_decide_eq_false in Hn. cbn. rewrite IH.
      destruct (bool_decide (name ∈ groups.*1)) eqn:Hin.
      * apply bool_decide_eq_true in Hin.
        by rewrite bool_decide_eq_true_2 by by apply list_elem_of_further.
      * apply bool_decide_eq_false in Hin.
        rewrite bool_decide_eq_false_2; [done|].
        intros [?|?]%elem_of_cons; [congruence|done].
Qed.

Lemma add_index_elem name index groups n indices :
  NoDup groups.*1 →
  (n, indices) ∈ add_index name index groups
  ↔ (n ≠ name ∧ (n, indices) ∈ groups)
    ∨ (n = name
       ∧ ((∃ old, (name, old) ∈ groups ∧ indices = old ++ [index])
          ∨ ((name ∉ groups.*1) ∧ indices = [index]))).
Proof.
  induction groups as [|[m old] groups IH]; cbn [add_index fmap list_fmap fst].
  - intros _. rewrite list_elem_of_singleton. split.
    + intros [= -> ->]. right. split; [done|]. right. split; [apply not_elem_of_nil|done].
    + intros [[_ H%elem_of_nil]|[-> [(old & H%elem_of_nil & _)|[_ ->]]]]; done.
  - intros [Hm Hnodup]%NoDup_cons. specialize (IH Hnodup).
    destruct (bool_decide (m = name)) eqn:Hmn.
    + apply bool_decide_eq_true in Hmn as ->. rewrite !elem_of_cons. split.
      * intros [[= -> ->]|Hin].
        -- right. split; [done|]. left. exists old. split; [by left|done].
        -- left. split; [|by right]. intros ->. apply Hm.
           apply list_elem_of_fmap. by exists (name, indices).
      * intros [[Hne [[= ? ?]|Hin]]|[-> [(old' & [[= <-]|Hin]%elem_of_cons & ->)|[Hnot _]]]].
        -- congruence.
        -- by right.
        -- by left.
        -- exfalso. apply Hm. apply list_elem_of_fmap. by exists (name, old').
        -- exfalso. apply Hnot. by left.
    + apply bool_decide_eq_false in Hmn. rewrite !elem_of_cons, IH. split.
      * intros [[= -> ->]|[[Hne Hin]|[-> [(old' & Hin & ->)|[Hnot ->]]]]].
        -- left. split; [done|by left].
        -- left. split; [done|by right].
        -- right. split; [done|]. left. exists old'. split; [by right|done].
        -- right. split; [done|]. right. split; [|done].
           intros [Heq|Hin]; [congruence|done].
      * intros [[Hne [[= -> ->]|Hin]]|[-> [(old' & [[= ? ?]|Hin]%elem_of_cons & ->)|[Hnot ->]]]].
        -- by left.
        -- right. left. by split.
        -- congruence.
        -- right. right. split; [done|]. left. by exists old'.
        -- right. right. split; [done|]. right. split; [|done].
           intros Hin. apply Hnot. by right.
Qed.

Lemma docs_chunks_snoc results r :
  docs_chunks (results ++ [r])
  = add_index (document_name r) (chunk_index r) (docs_chunks results).
Proof. unfold docs_chunks. by rewrite foldl_app. Qed.

(** X12: [docs_chunks], the grouping step of [search_with_context], has
    one entry per document name among the results, and the entry of a name
    holds the chunk indices of the results of that document, in result
    order, duplicates included. *)
Theorem docs_chunks_groups results :
  NoDup (docs_chunks results).*1
  ∧ ∀ name indices,
      (name, indices) ∈ docs_chunks results
      ↔ indices ≠ []
        ∧ indices = chunk_index <$> filter (λ r, document_name r = name) results.
Proof.
  induction results as [|r results IH] using rev_ind.
  - split; [constructor|]. intros name indices. cbn. split.
    + by intros ?%elem_of_nil.
    + by intros [Hne ->].
  - destruct IH as [Hnodup IH]. rewrite docs_chunks_snoc. split.
    + rewrite add_index_names. destruct (bool_decide _) eqn:Hin; [done|].
      apply bool_decide_eq_false in Hin. apply NoDup_app. split; [done|].
      split; [|apply NoDup_singleton].
      intros n Hn ->%list_elem_of_singleton. done.
    + intros name indices. rewrite add_index_elem by done.
      rewrite filter_app, fmap_app, filter_cons, filter_nil. split.
      * intros [[Hne Hin]|[-> [(old & Hin & ->)|[Hnot ->]]]].
        -- apply IH in Hin as [Hnonempty ->].
           rewrite decide_False by done. cbn. by rewrite app_nil_r.
        -- apply IH in Hin as [Hnonempty ->]. rewrite decide_True by done. cbn.
           split; [|done]. by intros [? _]%app_eq_nil.
        -- rewrite decide_True by done. cbn. split; [done|].
           destruct (filter _ results) as [|r' rs'] eqn:Hfilter; [done|]. exfalso.
           apply Hnot. apply list_elem_of_fmap.
           exists (document_name r, chunk_index <$> (r' :: rs')). split; [done|].
           apply IH. split; [done|]. by rewrite Hfilter.
      * intros [Hnonempty ->].
        destruct (decide (document_name r = name)) as [<-|Hne].
        -- right. split; [done|]. cbn.
           destruct (filter (λ r0, document_name r0 = document_name r) results)
             as [|r' rs'] eqn:Hfilter.
           ++ right. split; [|done]. intros ([n old] & Hn & Hin)%list_elem_of_fmap.
              cbn in Hn. subst n. apply IH in Hin as [Hold ->].
              by rewrite Hfilter in Hold.
           ++ left. exists (chunk_index <$> (r' :: rs')). split; [|done].
              apply IH. split; [done|]. by rewrite Hfilter.
        -- left. split; [done|]. cbn in *. rewrite app_nil_r in *. by apply IH.
Qed.

Lemma search_min_score_monotone_witness :
  let ra := collect 5 (1 # 2) sample_hits [] in
  let rb := collect 5 (7 # 10) sample_hits [] in
  len rb ≤ len ra ∧ Forall (λ r, (7 # 10 <= score r)%Q) rb ∧ (1 ≤ 5 → len rb ≤ 5).
Proof.
  intros ra rb.
  assert (Hle : (1 # 2 <= 7 # 10)%Q) by (unfold Qle; cbn; lia).
  exact (search_min_score_monotone sample_generate_embedding sample_hybrid_search
           (lit "leave") 5 None (1 # 2) (7 # 10) ra rb Hle eq_refl eq_refl).
Defined.

Lemma search_keeps_ranking_witness :
  collect 1 DEFAULT_MIN_SCORE (take 2 sample_hits) []
  = take 1 (candidates DEFAULT_MIN_SCORE (take 2 sample_hits)).
Proof.
  destruct (search_keeps_ranking sample_generate_embedding sample_hybrid_search
              (lit "leave") 1 DEFAULT_MIN_SCORE (Some [])
              (collect 1 DEFAULT_MIN_SCORE (take 2 sample_hits) []) eq_refl)
    as (v & hits & _ & Hhits & Hresults & _).
  injection Hhits as <-. exact Hresults.
Defined.

Lemma search_with_context_extends_search_witness :
  ∃ neighbors,
    value_or [] (sample_search_with_context (lit "leave") 3 1)
    ≡ₚ collect 3 DEFAULT_MIN_SCORE sample_hits [] ++ neighbors
    ∧ Forall (λ r, score r = CONTEXT_SCORE) neighbors.
Proof.
  assert (Hout : sample_search_with_context (lit "leave") 3 1
                 = Ok (value_or [] (sample_search_with_context (lit "leave") 3 1)))
    by (vm_compute; reflexivity).
  exact (proj1 (search_with_context_extends_search sample_generate_embedding
                  sample_hybrid_search sample_neighbor_search (lit "leave") 3 1
                  (collect 3 DEFAULT_MIN_SCORE sample_hits []) _ eq_refl Hout)).
Defined.

Lemma search_with_context_sorted_witness :
  StronglySorted (key_le key_leb sort_key)
    (value_or [] (sample_search_with_context (lit "leave") 3 1)).
Proof.
  assert (Hc : 1 ≠ 0) by lia.
  assert (Hout : sample_search_with_context (lit "leave") 3 1
                 = Ok (value_or [] (sample_search_with_context (lit "leave") 3 1)))
    by (vm_compute; reflexivity).
  exact (search_with_context_sorted sample_generate_embedding sample_hybrid_search
           sample_neighbor_search (lit "leave") 3 1 _ Hc Hout).
Defined.

End RetrieverFacts.

Module PyStripFacts.
Import PyStr PyStrFacts.

Lemma lstrip_all_space s : Forall (λ c, isspace c = true) s → lstrip s = [].
Proof. induction 1 as [|c s Hc _ IH]; [done|]. cbn. by rewrite Hc. Qed.

Lemma strip_all_space s : Forall (λ c, isspace c = true) s → strip s = [].
Proof. intros H. unfold strip, rstrip. rewrite (lstrip_all_space s H). reflexivity. Qed.

(** [lstrip] removes a prefix of whitespace and stops at the first other
    character. *)
Lemma lstrip_split s :
  ∃ spaces, s = spaces ++ lstrip s
            ∧ Forall (λ c, isspace c = true) spaces
            ∧ (∀ c, head (lstrip s) = Some c → isspace c = false).
Proof.
  induction s as [|c s (spaces & Hs & Hspaces & Hhead)].
  - exists []. by repeat split.
  - cbn [lstrip]. destruct (isspace c) eqn:Hc.
    + exists (c :: spaces). split; [by rewrite Hs at 1|]. split; [by constructor|done].
    + exists []. split; [done|]. split; [done|]. by intros c' [= <-].
Qed.

Lemma lstrip_keep s c : head s = Some c → isspace c = false → lstrip s = s.
Proof. destruct s as [|c' s]; [done|]. intros [= ->] Hc. cbn. by rewrite Hc. Qed.

(** [strip] leaves nothing, or a string that neither starts nor ends with
    whitespace. *)
Lemma strip_trimmed s :
  strip s = []
  ∨ ∃ first final,
      head (strip s) = Some first ∧ last (strip s) = Some final
      ∧ isspace first = false ∧ isspace final = false.
Proof.
  unfold strip, rstrip.
  destruct (lstrip_split s) as (_ & _ & _ & Hhead). set (t := lstrip s) in *.
  destruct (lstrip_split (reverse t)) as (spaces & Ht & Hspaces & Hlast).
  set (u := lstrip (reverse t)) in *.
  destruct u as [|final u'] eqn:Hu; [by left|]. right.
  assert (Hrev : t = reverse (final :: u') ++ reverse spaces).
  { by rewrite <-reverse_app, <-Ht, reverse_involutive. }
  destruct (reverse (final :: u')) as [|first v] eqn:Hv.
  { apply (f_equal reverse) in Hv. by rewrite reverse_involutive in Hv. }
  exists first, final. split; [done|]. split.
  - rewrite <-Hv, reverse_cons. apply last_snoc.
  - split; [|by apply Hlast]. apply Hhead. by rewrite Hrev.
Qed.

(** A string whose last character is not whitespace keeps it, so its
    [strip] is not empty. *)
Lemma strip_nonempty s c : last s = Some c → isspace c = false → strip s ≠ [].
Proof.
  intros Hlast Hc. unfold strip, rstrip.
  destruct (lstrip_split s) as (spaces & Hs & Hspaces & _).
  set (t := lstrip s) in *.
  assert (Ht : last t = Some c).
  { rewrite Hs, last_app in Hlast. destruct (last t) as [x|]; [done|]. exfalso.
    apply last_Some in Hlast as [l' ->]. apply Forall_app in Hspaces as [_ Hx].
    apply (proj1 (Forall_singleton _ _)) in Hx. cbn beta in Hx. congruence. }
  assert (Hhead : head (reverse t) = Some c).
  { apply last_Some in Ht as [t' ->]. by rewrite reverse_snoc. }
  rewrite (lstrip_keep _ c), reverse_involutive by done.
  intros ->. done.
Qed.

End PyStripFacts.

Module EmbeddingsEdgeFacts.
Import PyStr PyStrFacts PyStripFacts PyResult PyResultFacts PySort Embeddings.

Lemma py_range_negative stop step :
  0 ≤ stop → step < 0 → py_range 0 stop step = Ok [].
Proof.
  intros Hstop Hstep. unfold py_range.
  destruct (Z.eqb_spec step 0); [lia|]. destruct (Z.ltb_spec 0 step); [lia|].
  assert ((0 - stop - step - 1) / - step ≤ 0) as Hle.
  { destruct (Z.le_gt_cases 0 (0 - stop - step - 1)).
    - rewrite Z.div_small; lia.
    - assert ((0 - stop - step - 1) / - step < 0); [|lia].
      apply Z.div_lt_upper_bound; lia. }
  unfold seqZ. by replace (Z.to_nat _) with 0%nat by lia.
Qed.

Section Generator.
Variable encode : str → result (list N).
Variable decode : list N → str.
Variable model : string.
Variable create : nat → Z → list str → result (list Embedding).

(** X13: [generate_embeddings_batch] with a batch size that is not
    positive never reaches the backend.  With [batch_size = 0] every
    attempt fails, in the tokenizer or in [range], and the method raises
    [RetryError].  With a negative batch size the loop body never runs:
    the result is the empty list when the tokenizer accepts every text, and
    [RetryError] when it raises on one of them.  An empty list of texts
    with a positive batch size gives the empty list. *)
Theorem generate_embeddings_batch_degenerate texts batch_size :
  (batch_size = 0 →
   generate_embeddings_batch encode decode create texts batch_size = Raise "RetryError")
  ∧ (batch_size < 0 →
     generate_embeddings_batch encode decode create texts batch_size
     = if is_ok (preprocess_all encode decode texts) then Ok []
       else Raise "RetryError")
  ∧ (0 < batch_size →
     generate_embeddings_batch encode decode create [] batch_size = Ok []).
Proof.
  unfold generate_embeddings_batch, generate_embeddings_batch_attempt, retry3.
  split; [|split].
  - intros ->. by destruct (preprocess_all encode decode texts).
  - intros Hneg. destruct (preprocess_all encode decode texts) as [processed|e]; [|done].
    cbn [mbind result_bind is_ok].
    by rewrite py_range_negative by (unfold len; lia).
  - intros Hpos. cbn [preprocess_all mbind result_bind].
    rewrite py_range_positive by done.
    replace ((len (@nil str) + batch_size - 1) / batch_size)
      with 0 by (symmetry; apply Z.div_small; unfold len; cbn; lia).
    done.
Qed.

(** X14: for a text that is empty or consists of whitespace only and is
    within the token limit, [generate_embedding] returns the zero vector of
    the model's dimension (3072 for text-embedding-3-large, 1536 otherwise)
    on the first attempt, without asking the backend. *)
Theorem generate_embedding_blank_text text tokens :
  Forall (λ c, isspace c = true) text →
  encode text = Ok tokens →
  len tokens ≤ token_limit →
  generate_embedding encode decode model create text
  = Ok (replicate (dimensions model) 0%Q)
  ∧ (length (replicate (dimensions model) 0%Q) = 1536%nat
     ∨ length (replicate (dimensions model) 0%Q) = 3072%nat).
Proof.
  intros Hblank Hencode Hlimit. split.
  - unfold generate_embedding, generate_embedding_attempt, retry3,
      truncate_to_token_limit.
    rewrite Hencode. cbn [mbind result_bind mret result_ret].
    rewrite (proj2 (Z.leb_le _ _) Hlimit). by rewrite strip_all_space.
  - rewrite length_replicate. unfold dimensions. destruct (String.eqb _ _); auto.
Qed.

(** X15: on a text the tokenizer accepts, with [limit] standing for
    [max_tokens], or for the model limit 8191 when [max_tokens] is 0:
    [truncate_to_token_limit] returns the text itself when it has at most
    [limit] tokens, and the decoding of [tokens[:limit]] otherwise.  When,
    in the second case, [max_tokens] is not negative and the tokenizer
    encodes the decoded prefix of [limit] tokens back to that prefix, the
    result has at most [limit] tokens and truncating it again changes
    nothing. *)
Theorem truncate_to_token_limit_bound text max_tokens tokens :
  encode text = Ok tokens →
  let limit := if max_tokens =? 0 then token_limit else max_tokens in
  (len tokens ≤ limit →
   truncate_to_token_limit encode decode text (Some max_tokens) = Ok text)
  ∧ (limit < len tokens →
     truncate_to_token_limit encode decode text (Some max_tokens)
     = Ok (decode (slice_to tokens limit)))
  ∧ (0 ≤ max_tokens → limit < len tokens →
     encode (decode (take (Z.to_nat limit) tokens)) = Ok (take (Z.to_nat limit) tokens) →
     let truncated := decode (take (Z.to_nat limit) tokens) in
     truncate_to_token_limit encode decode text (Some max_tokens) = Ok truncated
     ∧ count_tokens encode truncated = Ok (len (take (Z.to_nat limit) tokens))
     ∧ len (take (Z.to_nat limit) tokens) ≤ limit
     ∧ truncate_to_token_limit encode decode truncated (Some max_tokens) = Ok truncated).
Proof.
  intros Hencode limit.
  assert (Hshort : len tokens ≤ limit →
            truncate_to_token_limit encode decode text (Some max_tokens) = Ok text).
  { intros Hle. unfold truncate_to_token_limit. rewrite Hencode.
    cbn [mbind result_bind mret result_ret]. fold limit.
    by rewrite (proj2 (Z.leb_le _ _) Hle). }
  assert (Hlong : limit < len tokens →
            truncate_to_token_limit encode decode text (Some max_tokens)
            = Ok (decode (slice_to tokens limit))).
  { intros Hlt. unfold truncate_to_token_limit. rewrite Hencode.
    cbn [mbind result_bind mret result_ret]. fold limit.
    by rewrite (proj2 (Z.leb_gt _ _) Hlt). }
  split; [exact Hshort|]. split; [exact Hlong|].
  intros Hnonneg Hlt Hround truncated.
  assert (Hlimit : 0 < limit).
  { subst limit. destruct (Z.eqb_spec max_tokens 0); [done|lia]. }
  assert (Hprefix : slice_to tokens limit = take (Z.to_nat limit) tokens).
  { unfold slice_to, clamp_index. destruct (Z.ltb_spec limit 0); [lia|].
    f_equal. lia. }
  assert (Hlen : len (take (Z.to_nat limit) tokens) ≤ limit).
  { unfold len in *. rewrite length_take. lia. }
  split; [by rewrite Hlong, Hprefix|]. split.
  { unfold count_tokens, truncated. by rewrite Hround. }
  split; [exact Hlen|].
  unfold truncate_to_token_limit, truncated. rewrite Hround.
  cbn [mbind result_bind mret result_ret]. fold limit.
  by rewrite (proj2 (Z.leb_le _ _) Hlen).
Qed.

End Generator.

Lemma generate_embedding_blank_text_witness :
  generate_embedding sample_encode sample_decode "text-embedding-3-large"
    (λ _ _ _, Raise "APIConnectionError") (lit "  ")
  = Ok (replicate 3072 0%Q).
Proof.
  assert (Hblank : Forall (λ c, isspace c = true) (lit "  "))
    by (repeat constructor).
  assert (Hlimit : len (lit "  ") ≤ token_limit) by (vm_compute; discriminate).
  exact (proj1 (generate_embedding_blank_text sample_encode sample_decode
                  "text-embedding-3-large" (λ _ _ _, Raise "APIConnectionError")
                  (lit "  ") (lit "  ") Hblank eq_refl Hlimit)).
Defined.

Lemma truncate_to_token_limit_bound_witness :
  truncate_to_token_limit sample_encode sample_decode (lit "annual leave policy") (Some 6)
  = Ok (lit "annual")
  ∧ count_tokens sample_encode (lit "annual") = Ok 6.
Proof.
  assert (Hnonneg : 0 ≤ 6) by lia.
  assert (Hlong : 6 < len (lit "annual leave policy")) by (vm_compute; reflexivity).
  destruct (proj2 (proj2 (truncate_to_token_limit_bound sample_encode sample_decode
                            (lit "annual leave policy") 6 (lit "annual leave policy")
                            eq_refl)) Hnonneg Hlong eq_refl)
    as (Htruncated & Hcount & _).
  split; [exact Htruncated|exact Hcount].
Defined.

End EmbeddingsEdgeFacts.

Module ChunkerProperties.
Import PyStr PyStrFacts PyStripFacts PyResult Chunker ChunkerFacts Embeddings Indexer.

Lemma strip_trimmed_or_empty s : strip s = [] ∨ trimmed (strip s).
Proof. apply strip_trimmed. Qed.

Lemma truthy_nonempty {A} (s : list A) : truthy s = true → s ≠ [].
Proof. by destruct s. Qed.

Lemma last_drop_lt {A} (l : list A) k :
  (k < length l)%nat → last (drop k l) = last l.
Proof.
  intros Hk. rewrite <-(take_drop k l) at 2. rewrite last_app.
  destruct (last (drop k l)) eqn:Hlast; [done|].
  apply last_None in Hlast. apply (f_equal length) in Hlast.
  rewrite length_drop in Hlast. cbn in Hlast. lia.
Qed.

Lemma slice_from_last (text : str) start c :
  start < len text → last text = Some c → last (slice_from text start) = Some c.
Proof.
  intros Hstart Hlast. unfold slice_from. rewrite last_drop_lt; [done|].
  assert (0 < length text)%nat by (destruct text; [done|cbn; lia]).
  unfold clamp_index, len in *. destruct (Z.ltb_spec start 0); lia.
Qed.

Section WithConfiguration.
Variables (size overlap : Z).

Lemma chunk_loop_trimmed fuel text c : ∀ start chunks result,
  last text = Some c → isspace c = false →
  Forall (λ w, trimmed w.2) chunks →
  chunk_loop size overlap fuel text start chunks = Some result →
  Forall (λ w, trimmed w.2) result.
Proof.
  induction fuel as [|fuel IH]; intros start chunks result Hlast Hc Hchunks; cbn [chunk_loop];
    [done|].
  destruct (Z.ltb_spec start (len text)) as [Hstart|_]; [|by intros [= <-]].
  unfold iterate. destruct (start + size >=? len text).
  - intros [= <-]. apply Forall_app. split; [done|]. apply Forall_singleton. cbn [snd].
    destruct (strip_trimmed_or_empty (slice_from text start)) as [Hempty|Htrimmed];
      [|done].
    exfalso. revert Hempty. eapply strip_nonempty; [|done].
    by apply slice_from_last.
  - set (chunk := strip (slice text start (choose_break size text start))).
    apply IH; [done..|].
    destruct (truthy chunk) eqn:Htruthy; [|done].
    apply Forall_app. split; [done|]. apply Forall_singleton. cbn [snd].
    destruct (strip_trimmed_or_empty (slice text start (choose_break size text start)))
      as [Hempty|Htrimmed]; [|done].
    apply truthy_nonempty in Htruthy. done.
Qed.

Lemma chunk_windows_trimmed fuel text windows :
  chunk_windows size overlap fuel text = Some windows →
  Forall (λ w, trimmed w.2) windows.
Proof.
  unfold chunk_windows, normalize.
  destruct (strip_trimmed_or_empty (sub_spaces false text)) as [Hempty|Htrimmed].
  - rewrite Hempty. destruct (len [] <=? size).
    + by intros [= <-].
    + destruct fuel; [done|]. cbn. by intros [= <-].
  - destruct (len _ <=? size).
    + intros [= <-]. destruct (truthy _); [|done]. by apply Forall_singleton.
    + destruct Htrimmed as (first & final & _ & Hlast & _ & Hfinal).
      by apply chunk_loop_trimmed with (c := final).
Qed.

End WithConfiguration.

(** X16: every chunk [chunk_text] returns is non-empty and neither starts
    nor ends with whitespace, whatever the text and the configured sizes:
    no blank chunk is ever handed to the embeddings generator. *)
Theorem chunk_text_chunks_trimmed size overlap fuel text chunks :
  chunk_text size overlap fuel text = Some chunks →
  Forall (λ chunk, chunk ≠ [] ∧ trimmed chunk) chunks.
Proof.
  unfold chunk_text.
  destruct (chunk_windows size overlap fuel text) as [windows|] eqn:Hwindows; [|done].
  intros [= <-]. apply chunk_windows_trimmed in Hwindows.
  apply Forall_fmap. eapply Forall_impl; [exact Hwindows|].
  intros w Hw. cbn. split; [|done]. intros Hempty.
  destruct Hw as (first & _ & Hhead & _). by rewrite Hempty in Hhead.
Qed.

Lemma chunk_text_chunks_trimmed_witness :
  Forall (λ chunk, chunk ≠ [] ∧ trimmed chunk) (chunks_of sample_text).
Proof.
  assert (H : chunk_text CHUNK_SIZE CHUNK_OVERLAP (S (length sample_text)) sample_text
              = Some (chunks_of sample_text)) by (vm_compute; reflexivity).
  exact (chunk_text_chunks_trimmed CHUNK_SIZE CHUNK_OVERLAP _ sample_text _ H).
Defined.

(** Whitespace is normalized away. *)
Lemma sub_spaces_blank s :
  Forall (λ c, isspace c = true) s →
  ∀ in_run, Forall (λ c, isspace c = true) (sub_spaces in_run s).
Proof.
  induction 1 as [|c s Hc _ IH]; intros in_run; cbn [sub_spaces]; [done|].
  rewrite Hc. destruct in_run; [apply IH|]. constructor; [done|apply IH].
Qed.

Lemma normalize_blank text :
  Forall (λ c, isspace c = true) text → normalize text = [].
Proof. intros H. apply strip_all_space. by apply sub_spaces_blank. Qed.

Lemma chunks_of_blank text :
  Forall (λ c, isspace c = true) text → chunks_of text = [].
Proof.
  intros H. unfold chunks_of, chunk_text, chunk_windows.
  by rewrite normalize_blank.
Qed.

Section Pipeline.
Variable download_document : SharePointDocument → result bytes.
Variables (extract_text_from_pdf extract_text_from_docx : bytes → str).
Variable decode_utf8 : bytes → option str.
Variable sha256_hexdigest : str → str.
Variable generate_embeddings_batch : list str → Z → result (list vector).
Variable upload_raises : list IndexDocument → bool.
Variable accepted : IndexDocument → bool.

(** X17: for a document that downloads but whose extracted text is empty
    or whitespace only, [index_document] returns 0 and leaves the index as
    it was, with no call logged: neither the embeddings generator nor the
    search service is reached, so their failures cannot surface. *)
Theorem index_document_blank_text document now st content :
  download_document document = Ok content →
  Forall (λ c, isspace c = true)
    (extract_text extract_text_from_pdf extract_text_from_docx decode_utf8
       document content) →
  index_document download_document extract_text_from_pdf extract_text_from_docx
    decode_utf8 sha256_hexdigest generate_embeddings_batch upload_raises accepted
    document now st = (Ok 0%nat, st).
Proof.
  intros Hdownload Hblank. unfold index_document. rewrite Hdownload.
  destruct (truthy (extract_text _ _ _ document content)); [|done]. cbn [negb].
  by rewrite chunks_of_blank.
Qed.

End Pipeline.

Lemma index_document_blank_text_witness :
  index_document sample_download (λ _, [SPACE; NEWLINE; SPACE]) sample_docx_text
    sample_decode_utf8 sample_digest (λ _ _, Raise "RetryError") always_raises accept_all
    (sample_document (lit "leave")) (sample_clock 0) sample_index
  = (Ok 0%nat, sample_index).
Proof.
  assert (Hblank : Forall (λ c, isspace c = true)
            (extract_text (λ _, [SPACE; NEWLINE; SPACE]) sample_docx_text
               sample_decode_utf8 (sample_document (lit "leave")) []))
    by (repeat constructor).
  exact (index_document_blank_text sample_download (λ _, [SPACE; NEWLINE; SPACE])
           sample_docx_text sample_decode_utf8 sample_digest (λ _ _, Raise "RetryError")
           always_raises accept_all (sample_document (lit "leave")) (sample_clock 0)
           sample_index [] eq_refl Hblank).
Defined.

(** What [rfind] finds is made of characters of the subject. *)
Lemma startswith_elem s p c : startswith s p = true → c ∈ p → c ∈ s.
Proof.
  revert s; induction p as [|x p IH]; intros s; [by intros _ ?%elem_of_nil|].
  destruct s as [|y s]; [done|]. cbn [startswith].
  intros [Hxy Hrest]%andb_true_iff [->|Hc]%elem_of_cons.
  - apply N.eqb_eq in Hxy as ->. by left.
  - right. by apply IH.
Qed.

Lemma rfind_aux_elem p c : c ∈ p → ∀ s i best,
  rfind_aux p s i best ≠ best → c ∈ s.
Proof.
  intros Hc. induction s as [|x s IH]; intros i best; cbn [rfind_aux].
  - destruct (startswith [] p) eqn:Hstart; [|done].
    intros _. by apply (startswith_elem [] p).
  - intros Hfound.
    destruct (decide (rfind_aux p s (i + 1) (if startswith (x :: s) p then i else best)
                      = (if startswith (x :: s) p then i else best))) as [Heq|Hne].
    + rewrite Heq in Hfound. destruct (startswith (x :: s) p) eqn:Hstart; [|done].
      by apply (startswith_elem _ p).
    + right. by eapply IH.
Qed.

Lemma rfind_elem s p c : rfind s p ≠ -1 → c ∈ p → c ∈ s.
Proof. intros Hfound Hc. by eapply rfind_aux_elem. Qed.

Lemma lstrip_elem s c : c ∈ lstrip s → c ∈ s.
Proof.
  destruct (lstrip_split s) as (spaces & Hs & _). intros Hc.
  rewrite Hs. apply elem_of_app. by right.
Qed.

Lemma strip_elem s c : c ∈ strip s → c ∈ s.
Proof.
  unfold strip, rstrip. intros Hc.
  rewrite elem_of_reverse in Hc. apply lstrip_elem in Hc.
  rewrite elem_of_reverse in Hc. by apply lstrip_elem.
Qed.

Lemma slice_elem {A} (s : list A) a b c : c ∈ slice s a b → c ∈ s.
Proof.
  unfold slice. intros Hc.
  eapply elem_of_sublist; [exact Hc|]. etrans; [apply sublist_take|apply sublist_drop].
Qed.

Lemma sub_spaces_whitespace s c : ∀ in_run,
  c ∈ sub_spaces in_run s → isspace c = true → c = SPACE.
Proof.
  induction s as [|x s IH]; intros in_run; cbn [sub_spaces]; [by intros ?%elem_of_nil|].
  destruct (isspace x) eqn:Hx.
  - destruct in_run; [apply IH|]. intros [->|Hc]%elem_of_cons; [done|by eapply IH].
  - intros [->|Hc]%elem_of_cons; [congruence|by eapply IH].
Qed.

Lemma normalize_whitespace text c :
  c ∈ normalize text → isspace c = true → c = SPACE.
Proof. intros Hc%strip_elem. by eapply sub_spaces_whitespace. Qed.

(** X18: the text [chunk_text] cuts has been normalized, so it holds no
    newline: in any slice of it the sentence endings that contain a newline
    are never found, and the search for a sentence break gives what it
    would give with the endings ". ", "? " and "! " alone. *)
Theorem newline_endings_never_match size text a b search_start start :
  (∀ pattern, NEWLINE ∈ pattern → rfind (slice (normalize text) a b) pattern = -1)
  ∧ sentence_break size sentence_endings (slice (normalize text) a b) search_start start
    = sentence_break size space_endings (slice (normalize text) a b) search_start start.
Proof.
  assert (Hnever : ∀ pattern, NEWLINE ∈ pattern →
                     rfind (slice (normalize text) a b) pattern = -1).
  { intros pattern Hnl.
    destruct (decide (rfind (slice (normalize text) a b) pattern = -1)) as [|Hfound];
      [done|].
    apply (rfind_elem _ _ NEWLINE) in Hfound; [|done].
    apply slice_elem, normalize_whitespace in Hfound; [done|reflexivity]. }
  split; [exact Hnever|].
  unfold sentence_endings, space_endings. cbn [sentence_break].
  rewrite !(Hnever [DOT; NEWLINE]), !(Hnever [QUESTION; NEWLINE]),
    !(Hnever [BANG; NEWLINE]), !(Hnever [NEWLINE; NEWLINE])
    by (rewrite !elem_of_cons; auto).
  cbn [Z.eqb]. done.
Qed.

Lemma slice_from_as_slice {A} (s : list A) start :
  slice_from s start = slice s start (len s).
Proof.
  unfold slice_from, slice.
  replace (clamp_index (len s) (len s)) with (len s)
    by (unfold clamp_index, len; destruct (Z.ltb_spec (Z.of_nat (length s)) 0); lia).
  rewrite take_ge; [done|]. rewrite length_drop. unfold len. lia.
Qed.

Section Windows.
Variables (size overlap : Z).

Lemma chunk_loop_window_bounds fuel text c : ∀ start chunks result,
  last text = Some c → isspace c = false →
  chunk_loop size overlap fuel text start chunks = Some result →
  ∃ bounds,
    window_bounds size overlap fuel text start = Some bounds
    ∧ result = chunks ++ filter (λ w, w.2 ≠ []) (cut text <$> bounds).
Proof.
  induction fuel as [|fuel IH]; intros start chunks result Hlast Hc;
    cbn [chunk_loop window_bounds]; [done|].
  destruct (Z.ltb_spec start (len text)) as [Hstart|_].
  2:{ intros [= <-]. exists []. split; [done|]. by rewrite app_nil_r. }
  unfold iterate. destruct (start + size >=? len text).
  - intros [= <-]. exists [(start, len text)]. split; [done|].
    change (cut text <$> [(start, len text)])
      with [(start, strip (slice text start (len text)))].
    rewrite <-slice_from_as_slice.
    rewrite filter_cons, decide_True; [done|]. cbn [snd].
    eapply strip_nonempty; [|done]. by apply slice_from_last.
  - set (best_break := choose_break size text start).
    set (next_start := if best_break - overlap <? 0 then best_break
                       else best_break - overlap).
    intros Hloop. apply IH in Hloop as (bounds & -> & ->); [|done..].
    exists ((start, best_break) :: bounds). split; [done|].
    change (cut text <$> (start, best_break) :: bounds)
      with ((start, strip (slice text start best_break)) :: (cut text <$> bounds)).
    rewrite filter_cons.
    destruct (strip (slice text start best_break)) as [|x chunk] eqn:Hchunk; cbn [truthy snd].
    + by rewrite decide_False by (intros H; by apply H).
    + rewrite decide_True by done. by rewrite <-app_assoc.
Qed.

Lemma window_bounds_cover fuel text : ∀ start bounds,
  0 ≤ overlap →
  window_bounds size overlap fuel text start = Some bounds →
  ∀ i, start ≤ i < len text → ∃ s e, (s, e) ∈ bounds ∧ s ≤ i < e.
Proof.
  induction fuel as [|fuel IH]; intros start bounds Hoverlap; cbn [window_bounds]; [done|].
  destruct (Z.ltb_spec start (len text)) as [Hstart|Hend]; [|intros _ i; lia].
  unfold iterate. destruct (start + size >=? len text).
  - intros [= <-] i Hi. exists start, (len text). split; [by left|done].
  - set (best_break := choose_break size text start).
    set (next_start := if best_break - overlap <? 0 then best_break
                       else best_break - overlap).
    destruct (window_bounds size overlap fuel text next_start) as [rest|] eqn:Hrest;
      [|done].
    cbn. intros [= <-] i Hi.
    destruct (Z.lt_ge_cases i best_break) as [Hin|Hout].
    + exists start, best_break. split; [by left|lia].
    + destruct (IH next_start rest Hoverlap Hrest i) as (s & e & Hse & Hi').
      { subst next_start. destruct (best_break - overlap <? 0); lia. }
      exists s, e. split; [by right|done].
Qed.

(** X19: with an overlap that is not negative, the slices the loop of
    [chunk_text] cuts from a normalized text longer than the target size
    cover it: every character position lies in the slice of some pass, and
    the chunks returned are these slices, stripped, in order, without the
    empty ones. *)
Theorem chunk_windows_cover_text fuel text windows :
  0 ≤ overlap →
  size < len (normalize text) →
  chunk_windows size overlap fuel text = Some windows →
  ∃ bounds,
    window_bounds size overlap fuel (normalize text) 0 = Some bounds
    ∧ windows = filter (λ w, w.2 ≠ []) (cut (normalize text) <$> bounds)
    ∧ ∀ i, 0 ≤ i < len (normalize text) → ∃ s e, (s, e) ∈ bounds ∧ s ≤ i < e.
Proof.
  intros Hoverlap Hlong. unfold chunk_windows.
  destruct (Z.leb_spec (len (normalize text)) size) as [|_]; [lia|].
  destruct (strip_trimmed_or_empty (sub_spaces false text)) as [Hempty|Htrimmed].
  - fold (normalize text) in Hempty. rewrite Hempty.
    destruct fuel; [done|]. cbn. intros [= <-]. exists []. split; [done|].
    split; [done|]. intros i Hi. unfold len in Hi. cbn in Hi. lia.
  - destruct Htrimmed as (first & final & _ & Hlast & _ & Hfinal).
    fold (normalize text) in Hlast. intros Hloop.
    apply (chunk_loop_window_bounds fuel (normalize text) final) in Hloop
      as (bounds & Hbounds & ->); [|done..].
    exists bounds. split; [done|]. split; [done|].
    by apply (window_bounds_cover fuel (normalize text) 0 bounds).
Qed.

End Windows.

Lemma chunk_windows_cover_text_witness :
  ∃ bounds,
    window_bounds CHUNK_SIZE CHUNK_OVERLAP 1500 (normalize sample_text) 0 = Some bounds
    ∧ default [] (chunk_windows CHUNK_SIZE CHUNK_OVERLAP 1500 sample_text)
      = filter (λ w, w.2 ≠ []) (cut (normalize sample_text) <$> bounds)
    ∧ ∀ i, 0 ≤ i < len (normalize sample_text) → ∃ s e, (s, e) ∈ bounds ∧ s ≤ i < e.
Proof.
  assert (Hoverlap : 0 ≤ CHUNK_OVERLAP) by (vm_compute; discriminate).
  assert (Hlong : CHUNK_SIZE < len (normalize sample_text)) by (vm_compute; reflexivity).
  assert (Hwindows : chunk_windows CHUNK_SIZE CHUNK_OVERLAP 1500 sample_text
                     = Some (default [] (chunk_windows CHUNK_SIZE CHUNK_OVERLAP 1500
                                           sample_text))) by (vm_compute; reflexivity).
  exact (chunk_windows_cover_text CHUNK_SIZE CHUNK_OVERLAP 1500 sample_text _
           Hoverlap Hlong Hwindows).
Defined.

End ChunkerProperties.

Module FormatContextFacts.
Import PyStr PyResult Retriever.

(** Within a run the header is not repeated. *)
Lemma context_parts_same name group rest :
  Forall (λ r, document_name r = name) group →
  context_parts (Some name) (group ++ rest)
  = (content <$> group) ++ context_parts (Some name) rest.
Proof.
  induction 1 as [|r group Hr _ IH]; [done|].
  cbn [app context_parts fmap list_fmap].
  rewrite bool_decide_eq_true_2 by congruence. by rewrite IH.
Qed.

Lemma context_parts_run current_doc name group rest :
  current_doc ≠ Some name →
  group ≠ [] →
  Forall (λ r, document_name r = name) group →
  context_parts current_doc (group ++ rest)
  = header name :: (content <$> group) ++ context_parts (Some name) rest.
Proof.
  intros Hcurrent Hgroup Hnames. destruct group as [|r group]; [done|].
  apply Forall_cons in Hnames as [Hr Hnames].
  cbn [app context_parts fmap list_fmap].
  rewrite bool_decide_eq_false_2 by congruence.
  rewrite Hr. by rewrite context_parts_same.
Qed.

Lemma context_parts_runs_from runs : ∀ current_doc,
  Forall (λ run, run.2 ≠ [] ∧ Forall (λ r, document_name r = run.1) run.2) runs →
  Sorted (λ a b, a.1 ≠ b.1) runs →
  (∀ run, head runs = Some run → current_doc ≠ Some run.1) →
  context_parts current_doc (run_results runs) = runs ≫= run_parts.
Proof.
  induction runs as [|[name group] runs IH]; intros current_doc Hruns Hsorted Hfirst;
    [done|].
  apply Forall_cons in Hruns as [[Hgroup Hnames] Hruns].
  apply Sorted_inv in Hsorted as [Hsorted Hhead].
  unfold run_results. cbn [mbind list_bind snd fst] in *.
  rewrite (context_parts_run current_doc name) by (try done; by apply (Hfirst (name, group))).
  unfold run_parts at 1. cbn [fst snd app]. do 2 f_equal.
  apply IH; [done..|].
  intros run Hrun. destruct runs as [|run' runs]; [done|]. injection Hrun as ->.
  apply HdRel_inv in Hhead. cbn in Hhead. congruence.
Qed.

(** X20: when the results handed to [format_context] consist of runs of
    consecutive results of one document, the name changing from each run to
    the next, the parts it joins are, run by run, one header line followed
    by the contents of the run: one header per run, so one per document
    when the results are grouped by document, and a repeated header when a
    document comes back after another one. *)
Theorem context_parts_runs runs :
  Forall (λ run, run.2 ≠ [] ∧ Forall (λ r, document_name r = run.1) run.2) runs →
  Sorted (λ a b, a.1 ≠ b.1) runs →
  context_parts None (run_results runs) = runs ≫= run_parts
  ∧ (runs ≠ [] →
     format_context (run_results runs) false
     = join [NEWLINE; NEWLINE] (runs ≫= run_parts)).
Proof.
  intros Hruns Hsorted.
  assert (Hparts : context_parts None (run_results runs) = runs ≫= run_parts)
    by by apply context_parts_runs_from.
  split; [exact Hparts|]. intros Hne. unfold format_context. rewrite Hparts.
  destruct runs as [|[name group] runs]; [done|].
  apply Forall_cons in Hruns as [[Hgroup _] _].
  unfold run_results. cbn [mbind list_bind snd]. by destruct group.
Qed.

Lemma dict_set_names key value d :
  (dict_set key value d).*1
  = if bool_decide (key ∈ d.*1) then d.*1 else d.*1 ++ [key].
Proof.
  induction d as [|[k v] d IH]; cbn [dict_set fmap list_fmap fst].
  - by rewrite bool_decide_eq_false_2 by apply not_elem_of_nil.
  - destruct (bool_decide (k = key)) eqn:Hk.
    + apply bool_decide_eq_true in Hk as ->. cbn.
      by rewrite bool_decide_eq_true_2 by apply list_elem_of_here.
    + apply bool_decide_eq_false in Hk. cbn. rewrite IH.
      destruct (bool_decide (key ∈ d.*1)) eqn:Hin.
      * apply bool_decide_eq_true in Hin.
        by rewrite bool_decide_eq_true_2 by by apply list_elem_of_further.
      * apply bool_decide_eq_false in Hin.
        rewrite bool_decide_eq_false_2; [done|].
        intros [?|?]%elem_of_cons; [congruence|done].
Qed.

Lemma dict_set_elem key value d n u :
  NoDup d.*1 →
  (n, u) ∈ dict_set key value d
  ↔ (n ≠ key ∧ (n, u) ∈ d) ∨ (n = key ∧ u = value).
Proof.
  induction d as [|[k v] d IH]; cbn [dict_set fmap list_fmap fst].
  - intros _. rewrite list_elem_of_singleton. split.
    + intros [= -> ->]. by right.
    + intros [[_ H%elem_of_nil]|[-> ->]]; done.
  - intros [Hk Hnodup]%NoDup_cons. specialize (IH Hnodup).
    destruct (bool_decide (k = key)) eqn:Hkey.
    + apply bool_decide_eq_true in Hkey as ->. rewrite !elem_of_cons. split.
      * intros [[= -> ->]|Hin]; [by right|].
        left. split; [|by right]. intros ->. apply Hk.
        apply list_elem_of_fmap. by exists (key, u).
      * intros [[Hne [[= ? ?]|Hin]]|[-> ->]]; [congruence|by right|by left].
    + apply bool_decide_eq_false in Hkey. rewrite !elem_of_cons, IH. split.
      * intros [[= -> ->]|[[Hne Hin]|[-> ->]]].
        -- left. split; [done|by left].
        -- left. split; [done|by right].
        -- by right.
      * intros [[Hne [[= -> ->]|Hin]]|[-> ->]].
        -- by left.
        -- right. left. by split.
        -- right. by right.
Qed.

Lemma unique_docs_snoc results r :
  unique_docs (results ++ [r])
  = dict_set (document_name r) (source_url r) (unique_docs results).
Proof. unfold unique_docs. by rewrite foldl_app. Qed.

(** X21: the sources listed by [format_context] name every document of
    the results exactly once, each with the [source_url] of the last result
    of that document. *)
Theorem unique_docs_last_url results :
  NoDup (unique_docs results).*1
  ∧ ∀ name url,
      (name, url) ∈ unique_docs results
      ↔ last (source_url <$> filter (λ r, document_name r = name) results) = Some url.
Proof.
  induction results as [|r results [Hnodup IH]] using rev_ind.
  - split; [constructor|]. intros name url. cbn. split; [by intros ?%elem_of_nil|done].
  - rewrite unique_docs_snoc. split.
    + rewrite dict_set_names. destruct (bool_decide _) eqn:Hin; [done|].
      apply bool_decide_eq_false in Hin. apply NoDup_app. split; [done|].
      split; [|apply NoDup_singleton].
      intros n Hn ->%list_elem_of_singleton. done.
    + intros name url. rewrite dict_set_elem by done.
      rewrite filter_app, fmap_app, filter_cons, filter_nil.
      destruct (decide (document_name r = name)) as [Hname|Hname].
      * cbn [fmap list_fmap]. rewrite last_snoc. split.
        -- intros [[Hne _]|[_ ->]]; [congruence|done].
        -- intros [= <-]. by right.
      * cbn [fmap list_fmap]. rewrite app_nil_r, <-IH. split.
        -- intros [[_ Hin]|[-> _]]; [done|congruence].
        -- intros Hin. left. split; [congruence|done].
Qed.

Lemma context_parts_runs_witness :
  let r1 := to_result (9 # 10) (sample_hit "leave.pdf" 1 None) in
  let r2 := to_result (8 # 10) (sample_hit "travel.pdf" 4 None) in
  let r3 := to_result (7 # 10) (sample_hit "leave.pdf" 2 None) in
  context_parts None [r1; r2; r3]
  = [header (lit "leave.pdf"); lit "text"; header (lit "travel.pdf"); lit "text";
     header (lit "leave.pdf"); lit "text"].
Proof.
  intros r1 r2 r3.
  assert (Hruns : Forall (λ run : str * list RetrievalResult,
                            run.2 ≠ [] ∧ Forall (λ r, document_name r = run.1) run.2)
                    [(lit "leave.pdf", [r1]); (lit "travel.pdf", [r2]);
                     (lit "leave.pdf", [r3])])
    by (repeat constructor; done).
  assert (Hsorted : Sorted (λ a b : str * list RetrievalResult, a.1 ≠ b.1)
                      [(lit "leave.pdf", [r1]); (lit "travel.pdf", [r2]);
                       (lit "leave.pdf", [r3])])
    by (repeat constructor; discriminate).
  exact (proj1 (context_parts_runs _ Hruns Hsorted)).
Defined.

End FormatContextFacts.

Module ChunkIdFacts.
Import PyStr PyStrFacts PyResult Chunker Embeddings Indexer.

(** Decimal numerals contain no underscore. *)
Lemma pretty_N_char_digit x : pretty_N_char x ≠ "_"%char.
Proof. unfold pretty_N_char. by repeat case_match. Qed.

Lemma pretty_N_go_no_underscore x : ∀ s,
  Forall (λ a, a ≠ "_"%char) (list_ascii_of_string s) →
  Forall (λ a, a ≠ "_"%char) (list_ascii_of_string (pretty_N_go x s)).
Proof.
  induction (N.lt_wf_0 x) as [x _ IH]. intros s Hs.
  destruct (N.eq_dec x 0%N) as [->|Hx]; [by rewrite pretty_N_go_0|].
  rewrite pretty_N_go_step by lia. apply IH; [apply N.div_lt; lia|].
  cbn. constructor; [apply pretty_N_char_digit|done].
Qed.

Lemma str_of_nat_no_underscore n : UNDERSCORE ∉ str_of_nat n.
Proof.
  unfold str_of_nat, lit. intros (a & Ha & Hin)%list_elem_of_fmap.
  assert (a = "_"%char) as ->.
  { rewrite <-(ascii_N_embedding a), <-Ha. reflexivity. }
  assert (Hall : Forall (λ a, a ≠ "_"%char) (list_ascii_of_string (pretty n))).
  { unfold pretty, pretty_nat, pretty, pretty_N.
    destruct (decide (N.of_nat n = 0%N)); [by repeat constructor|].
    apply pretty_N_go_no_underscore. constructor. }
  rewrite Forall_forall in Hall. by apply (Hall _ Hin).
Qed.

Lemma str_of_nat_inj i j : str_of_nat i = str_of_nat j → i = j.
Proof.
  unfold str_of_nat, lit. intros H.
  assert (Hback : ∀ l : list ascii, ascii_of_N <$> (N_of_ascii <$> l) = l).
  { induction l as [|a l IH]; [done|]. cbn. by rewrite ascii_N_embedding, IH. }
  apply (f_equal (fmap ascii_of_N)) in H. rewrite !Hback in H.
  apply (f_equal string_of_list_ascii) in H.
  rewrite !string_of_list_ascii_of_string in H. by apply (inj pretty) in H.
Qed.

(** A string is cut in one way only at its first separator. *)
Lemma split_at_separator {A} (sep : A) (a b p q : list A) :
  sep ∉ a → sep ∉ b → a ++ sep :: p = b ++ sep :: q → a = b ∧ p = q.
Proof.
  revert b. induction a as [|x a IH]; intros [|y b] Ha Hb; cbn.
  - by intros [= ->].
  - intros [= <- _]. exfalso. apply Hb. by left.
  - intros [= -> _]. exfalso. apply Ha. by left.
  - intros [= -> Hrest]. apply not_elem_of_cons in Ha as [_ Ha].
    apply not_elem_of_cons in Hb as [_ Hb].
    destruct (IH b Ha Hb Hrest) as [-> ->]. done.
Qed.

(** The string that is hashed into the id of a chunk. *)
Lemma hashed_string_inj (id : str) i j (p q : str) :
  id ++ [UNDERSCORE] ++ str_of_nat i ++ [UNDERSCORE] ++ p
  = id ++ [UNDERSCORE] ++ str_of_nat j ++ [UNDERSCORE] ++ q →
  i = j ∧ p = q.
Proof.
  intros H. apply app_inv_head in H. cbn [app] in H. injection H as H.
  apply split_at_separator in H as [Hij Hpq]; [|apply str_of_nat_no_underscore..].
  split; [by apply str_of_nat_inj|done].
Qed.

Section Ids.
Variable sha256_hexdigest : str → str.

(** X23: the strings hashed for the chunks of one document differ from
    position to position, so the chunk ids of one run of [index_document]
    are pairwise distinct unless the 32-character prefix of the digest
    collides on two of these strings. *)
Theorem chunk_ids_distinct_within_document document chunks :
  (∀ i j c1 c2,
     chunks !! i = Some c1 → chunks !! j = Some c2 →
     chunk_id sha256_hexdigest document i c1 = chunk_id sha256_hexdigest document j c2 →
     doc_id document ++ [UNDERSCORE] ++ str_of_nat i ++ [UNDERSCORE] ++ slice_to c1 100
     = doc_id document ++ [UNDERSCORE] ++ str_of_nat j ++ [UNDERSCORE] ++ slice_to c2 100) →
  NoDup (imap (chunk_id sha256_hexdigest document) chunks).
Proof.
  intros Hdigest. apply NoDup_alt. intros i j id.
  rewrite !list_lookup_imap.
  destruct (chunks !! i) as [c1|] eqn:Hi; [|done].
  destruct (chunks !! j) as [c2|] eqn:Hj; [|done].
  cbn. intros [= <-] [= Hid].
  symmetry in Hid. apply (Hdigest i j c1 c2 Hi Hj) in Hid.
  by apply hashed_string_inj in Hid as [-> _].
Qed.

(** X24: across documents the hashed string is ambiguous: chunk [j] of a
    document whose id ends in "_i" gets the same id as chunk [i] of the
    document named by the rest of that id, when the content of the latter
    is the content of the former behind the prefix "j_" (and fits in the
    100 hashed characters), whatever the hash function is. *)
Theorem chunk_id_ambiguous_across_documents document document' i j chunk :
  doc_id document' = doc_id document ++ [UNDERSCORE] ++ str_of_nat i →
  len (str_of_nat j ++ [UNDERSCORE] ++ chunk) ≤ 100 →
  doc_id document' ≠ doc_id document
  ∧ chunk_id sha256_hexdigest document' j chunk
    = chunk_id sha256_hexdigest document i (str_of_nat j ++ [UNDERSCORE] ++ chunk).
Proof.
  intros Hid Hlen. split.
  - rewrite Hid. intros H. apply (f_equal length) in H.
    rewrite !length_app in H. cbn in H. lia.
  - unfold chunk_id. rewrite Hid. do 2 f_equal.
    assert (Hshort : ∀ s : str, len s ≤ 100 → slice_to s 100 = s).
    { intros s Hs. unfold slice_to, clamp_index. cbn.
      apply take_ge. unfold len in *. lia. }
    rewrite (Hshort (str_of_nat j ++ [UNDERSCORE] ++ chunk)) by done.
    rewrite Hshort.
    + by rewrite <-!app_assoc.
    + unfold len in *. rewrite !length_app in Hlen. lia.
Qed.

End Ids.

Lemma chunk_ids_distinct_within_document_witness :
  NoDup (imap (chunk_id sample_digest (sample_document (lit "leave")))
           [lit "Leave policy."; lit "Leave policy."]).
Proof.
  apply (chunk_ids_distinct_within_document sample_digest (sample_document (lit "leave"))).
  intros [|[|i]] [|[|j]] c1 c2; cbn; intros [= <-] [= <-]; try done;
    vm_compute; discriminate.
Defined.

Lemma chunk_id_ambiguous_across_documents_witness :
  chunk_id sample_digest (sample_document (lit "policy_1")) 2 (lit "Leave")
  = chunk_id sample_digest (sample_document (lit "policy")) 1 (lit "2_Leave").
Proof.
  assert (Hlen : len (str_of_nat 2 ++ [UNDERSCORE] ++ lit "Leave") ≤ 100)
    by (vm_compute; discriminate).
  exact (proj2 (chunk_id_ambiguous_across_documents sample_digest
                  (sample_document (lit "policy")) (sample_document (lit "policy_1"))
                  1 2 (lit "Leave") eq_refl Hlen)).
Defined.

End ChunkIdFacts.

Module EmbeddingsRequestFacts.
Import PyStr PyStrFacts PyStripFacts PyResult PyResultFacts PySort Embeddings EmbeddingsFacts.

Lemma mjoin_snoc {A} (ls : list (list A)) (l : list A) : mjoin (ls ++ [l]) = mjoin ls ++ l.
Proof.
  rewrite join_app. cbn. by rewrite app_nil_r.
Qed.

Lemma mjoin_first_batches (processed : list str) batch_size k :
  0 < batch_size →
  mjoin ((λ i, slice processed i (i + batch_size)) <$> offsets batch_size k)
  = take (Z.to_nat (Z.of_nat k * batch_size)) processed.
Proof.
  intros Hb. induction k as [|k IH]; [done|].
  rewrite offsets_S, fmap_app.
  change ((λ i, slice processed i (i + batch_size)) <$> [Z.of_nat k * batch_size])
    with [slice processed (Z.of_nat k * batch_size) (Z.of_nat k * batch_size + batch_size)].
  rewrite mjoin_snoc, IH. by apply take_next_batch.
Qed.

Section Generator.
Variable encode : str → result (list N).
Variable decode : list N → str.
Variable create : nat → Z → list str → result (list Embedding).

Lemma preprocess_nonempty text processed :
  preprocess encode decode text = Ok processed → processed ≠ [].
Proof.
  unfold preprocess.
  destruct (truncate_to_token_limit encode decode text None) as [truncated|e]; [|done].
  cbn. intros [= <-]. destruct (truthy (strip truncated)) eqn:H; [|done].
  intros Hempty. by rewrite Hempty in H.
Qed.

Lemma processed_nonempty texts processed :
  Forall2 (λ text p, preprocess encode decode text = Ok p) texts processed →
  Forall (λ text, text ≠ []) processed.
Proof.
  induction 1 as [|text p texts' ps Hp _ IH]; constructor; [|exact IH].
  by eapply preprocess_nonempty.
Qed.

(** X25: for a positive batch size, an attempt of
    [generate_embeddings_batch] on texts the tokenizer accepts asks the
    backend once for each batch, in order; concatenated, the batches are
    the preprocessed texts, each batch holds at least one and at most
    [batch_size] texts, and no text sent is the empty string.  When the
    tokenizer raises on one of the texts the attempt ends with that
    exception and asks the backend nothing. *)
Theorem generate_embeddings_batch_requests attempt texts batch_size :
  0 < batch_size →
  (∀ processed,
     preprocess_all encode decode texts = Ok processed →
     generate_embeddings_batch_attempt encode decode create attempt texts batch_size
     = foldl (batch_step create attempt processed batch_size) (Ok [])
         (offsets batch_size (Z.to_nat ((len processed + batch_size - 1) / batch_size)))
     ∧ mjoin (batches processed batch_size) = processed
     ∧ Forall (λ batch, 0 < len batch ≤ batch_size) (batches processed batch_size)
     ∧ Forall (λ text, text ≠ []) processed)
  ∧ (∀ e, preprocess_all encode decode texts = Raise e →
          generate_embeddings_batch_attempt encode decode create attempt texts batch_size
          = Raise e).
Proof.
  intros Hb. split; [|intros e He; by apply attempt_raises].
  intros processed Hprocessed.
  assert (Hk : 0 ≤ (len processed + batch_size - 1) / batch_size)
    by (apply Z.div_pos; unfold len; lia).
  split; [by apply attempt_unfold|]. split; [|split].
  - unfold batches. rewrite mjoin_first_batches by done. by apply batches_cover.
  - unfold batches, offsets. rewrite <-list_fmap_compose.
    apply Forall_fmap, Forall_forall. intros j Hj. cbn.
    apply elem_of_seqZ in Hj. rewrite Z2Nat.id in Hj by done.
    pose proof (Z.mul_div_le (len processed + batch_size - 1) batch_size Hb).
    assert (j * batch_size < len processed) by nia.
    rewrite slice_take_drop by nia.
    unfold len in *. rewrite length_take, length_drop. lia.
  - by eapply processed_nonempty, preprocess_all_ok.
Qed.

End Generator.

Lemma generate_embeddings_batch_requests_witness :
  let processed := [lit "ab"; [SPACE]; [SPACE]; lit "cde"; lit "f"] in
  mjoin (batches processed 2) = processed
  ∧ Forall (λ batch, 0 < len batch ≤ 2) (batches processed 2).
Proof.
  intros processed.
  assert (Hb : 0 < 2) by lia.
  destruct (proj1 (generate_embeddings_batch_requests strict_encode sample_decode
                     reversing_backend 0%nat [lit "ab"; []; lit "  "; lit "cde"; lit "f"]
                     2 Hb) processed ltac:(vm_compute; reflexivity))
    as (_ & Hjoin & Hsizes & _).
  split; [exact Hjoin|exact Hsizes].
Defined.

End EmbeddingsRequestFacts.
